(** * A shallow embedding of [client.py] (class [MCPClient])

    The client bridges a chat model with a tool server.  The part embedded
    here is the tool-augmented conversation loop: [openai_chat] (prompt
    construction), the directive scan of [process_query]
    ([re.findall] over the model's answer), the dispatch loop and the
    interactive [chat_loop].

    Python strings are sequences of Unicode code points, so a text is a
    list of code points.  The session, the chat model and the console are
    capabilities of an explicit world that is threaded through every call;
    each interaction is appended to a log. *)

From Stdlib Require Import String Ascii NArith ZArith Bool Lia List Sorted.
From Stdlib Require DecimalString.
Import ListNotations.
#[local] Open Scope list_scope.

Set Implicit Arguments.

(* ------------------------------------------------------------------ *)
(** ** Texts *)

Definition char := N.
Definition text := list char.

(** [str] reads a literal of the development as a text (one code point per
    character of the literal). *)
Definition str (s : string) : text :=
  map N_of_ascii (list_ascii_of_string s).
Arguments str s%_string : simpl never.

Definition LF : char := 10%N.          (* '\n' *)
Definition QUOTE : char := 34%N.       (* the double quote *)
Definition SPACE : char := 32%N.
Definition LBRACKET : char := 91%N.    (* '[' *)
Definition RBRACKET : char := 93%N.    (* ']' *)
Definition UNDERSCORE : char := 95%N.

Definition text_eqb (a b : text) : bool :=
  if list_eq_dec N.eq_dec a b then true else false.

(** [sep.join(parts)] *)
Fixpoint join (sep : text) (parts : list text) : text :=
  match parts with
  | [] => []
  | [p] => p
  | p :: rest => p ++ sep ++ join sep rest
  end.

(* ------------------------------------------------------------------ *)
(** ** Python values

    The values [json.loads] produces and the ones an MCP input schema is
    made of.  A [dict] keeps its insertion order, which [items()] follows,
    so it is an association list. *)

#[warnings="-register-all"]
Inductive pyvalue :=
| PNone
| PBool (b : bool)
| PInt (n : Z)
| PFloat (lexeme : text)
| PStr (s : text)
| PList (items : list pyvalue)
| PDict (entries : list (text * pyvalue)).

(** The exceptions that [except Exception] catches: the ones the
    subscripts of the client raise, and the ones a library or a capability
    raises, named by their message.  What is not an [Exception] (an
    interrupt, a cancellation, an exit) is outside the model. *)
Inductive exn :=
| KeyError (key : text)
| TypeError
| AttributeError
| Raised (msg : text).

Definition result (A : Type) := (exn + A)%type.

(** What the embedding takes from the Python runtime and its standard
    library. *)
Record Runtime := {
  isalnum : char -> bool;               (* str.isalnum on one code point *)
  py_repr : pyvalue -> text;            (* repr(v) *)
  json_loads : text -> result pyvalue;  (* json.loads(s) *)
  exn_str : exn -> text;                (* str(e) *)
  str_strip : text -> text;             (* s.strip() *)
  str_lower : text -> text              (* s.lower() *)
}.

(** [isalnum] restricted to ASCII. *)
Definition ascii_alnum (c : char) : bool :=
  ((48 <=? c) && (c <=? 57) || (65 <=? c) && (c <=? 90)
   || (97 <=? c) && (c <=? 122))%N.

Definition ascii_faithful (rt : Runtime) : Prop :=
  forall c, (c < 128)%N -> isalnum rt c = ascii_alnum c.

(* ------------------------------------------------------------------ *)
(** ** The directive pattern

    [tool_call_pattern = r"\[TOOL_CALL: (\w+) (.+?)\]"].  The pattern uses
    literals and two captured one-or-more repetitions of a character
    class, the first greedy and the second lazy. *)

Inductive cclass :=
| Word        (* \w *)
| AnyChar.    (* .  (no DOTALL: everything but a line feed) *)

Inductive node :=
| Literal (c : char)
| Capture1 (greedy : bool) (cls : cclass).   (* (cls+) or (cls+?) *)

Definition tool_call_pattern : list node :=
  map Literal (str "[TOOL_CALL: ")
  ++ [Capture1 true Word; Literal SPACE; Capture1 false AnyChar;
      Literal RBRACKET].

Section Regex.
Variable word_alnum : char -> bool.

Definition in_class (cls : cclass) (c : char) : bool :=
  match cls with
  | Word => word_alnum c || (c =? UNDERSCORE)%N
  | AnyChar => negb (c =? LF)%N
  end.

(** One-or-more repetition of a class in front of the continuation [k]
    (the matcher of what follows in the pattern); [acc] is what the
    repetition has read so far.  A greedy repetition tries to read on
    before it tries [k], a lazy one the other way round. *)
Fixpoint repeat1 (greedy : bool) (cls : cclass)
    (k : text -> option (list text * text)) (acc : text) (s : text)
    {struct s} : option (list text * text) :=
  match s with
  | [] => None
  | x :: s' =>
      if in_class cls x then
        if greedy then
          match repeat1 greedy cls k (acc ++ [x]) s' with
          | Some r => Some r
          | None =>
              match k s' with
              | Some (gs, rest) => Some ((acc ++ [x]) :: gs, rest)
              | None => None
              end
          end
        else
          match k s' with
          | Some (gs, rest) => Some ((acc ++ [x]) :: gs, rest)
          | None => repeat1 greedy cls k (acc ++ [x]) s'
          end
      else None
  end.

(** The backtracking matcher, anchored at the head of [s]: the captured
    groups and the unread rest of the first successful path. *)
Fixpoint match_here (p : list node) (s : text) {struct p}
  : option (list text * text) :=
  match p with
  | [] => Some ([], s)
  | Literal c :: p' =>
      match s with
      | x :: s' => if (x =? c)%N then match_here p' s' else None
      | [] => None
      end
  | Capture1 greedy cls :: p' => repeat1 greedy cls (match_here p') [] s
  end.

(** One match of the directive pattern: its two groups and the rest. *)
Definition match_tool_call (s : text) : option ((text * text) * text) :=
  match match_here tool_call_pattern s with
  | Some ([g1; g2], rest) => Some ((g1, g2), rest)
  | _ => None
  end.

(** [re.finditer]: the scan moves left to right; after a match it goes
    on where the match ended, otherwise one character further.  [pos]
    is the offset of [s] in the scanned text.  A match of this pattern
    is never empty, so [S (length s)] steps reach the end. *)
Fixpoint finditer_from (fuel pos : nat) (s : text)
  : list (nat * (text * text)) :=
  match fuel with
  | O => []
  | S fuel' =>
      match match_tool_call s with
      | Some (groups, rest) =>
          (pos, groups)
            :: finditer_from fuel' (pos + (length s - length rest)) rest
      | None =>
          match s with
          | [] => []
          | _ :: s' => finditer_from fuel' (S pos) s'
          end
      end
  end.

Definition finditer (s : text) : list (nat * (text * text)) :=
  finditer_from (S (length s)) 0 s.

(** [re.findall(tool_call_pattern, s)]: the group pairs of the matches. *)
Definition findall (s : text) : list (text * text) :=
  map snd (finditer s).
End Regex.

Definition quoted (s : string) : text := QUOTE :: str s ++ [QUOTE].
Arguments quoted s%_string.


(* ------------------------------------------------------------------ *)
(** ** Data of the conversation *)

Inductive role := System | User | Assistant.

(** [{"role": ..., "content": ...}] *)
Record message := { msg_role : role; msg_content : text }.

(** A tool as [session.list_tools()] describes it. *)
Record Tool := {
  tool_name : text;
  tool_description : option text;     (* [None] when the server gives none *)
  tool_inputSchema : pyvalue
}.

(** The dict [process_query] builds for each tool:
    [{"name": ..., "description": ..., "input_schema": ...}]. *)
Record tool_entry := {
  e_name : text;
  e_description : option text;
  e_input_schema : pyvalue
}.

(** The result of [session.call_tool]; the client only ever reads
    [str(result.content)], which is what [result_content] holds. *)
Record CallToolResult := { result_content : text }.

(** The arguments of [openai.ChatCompletion.acreate]. *)
Record request := {
  req_model : text;
  req_messages : list message;
  req_max_tokens : Z;
  req_temperature_tenths : Z      (* temperature=0.7 is 7 tenths *)
}.

(** One interaction with the outside. *)
Inductive event :=
| EvPrint (line : text)
| EvInput (prompt : text) (r : result text)
| EvListTools (r : result (list Tool))
| EvComplete (req : request) (r : result text)
| EvCallTool (name : text) (args : pyvalue) (r : result CallToolResult).

(** The capabilities over a world [W]: the MCP session, the chat model
    (the text of the first choice of the completion) and the console. *)
Record Capabilities (W : Type) := {
  session_list_tools : W -> result (list Tool) * W;
  session_call_tool : text -> pyvalue -> W -> result CallToolResult * W;
  chat_completion : request -> W -> result text * W;
  console_input : text -> W -> result text * W
}.

(* ------------------------------------------------------------------ *)
(** ** Subscripts and formatting *)

Fixpoint assoc (key : text) (entries : list (text * pyvalue))
  : option pyvalue :=
  match entries with
  | [] => None
  | (k, v) :: rest => if text_eqb k key then Some v else assoc key rest
  end.

(** [v[key]] for a string key. *)
Definition subscript (v : pyvalue) (key : text) : result pyvalue :=
  match v with
  | PDict entries =>
      match assoc key entries with
      | Some x => inr x
      | None => inl (KeyError key)
      end
  | _ => inl TypeError
  end.

(** [v.items()] *)
Definition items (v : pyvalue) : result (list (text * pyvalue)) :=
  match v with
  | PDict entries => inr entries
  | _ => inl AttributeError
  end.

Definition result_bind {A B} (r : result A) (f : A -> result B)
  : result B :=
  match r with
  | inl e => inl e
  | inr a => f a
  end.

Fixpoint result_map {A B} (f : A -> result B) (xs : list A)
  : result (list B) :=
  match xs with
  | [] => inr []
  | x :: rest =>
      result_bind (f x) (fun y =>
      result_bind (result_map f rest) (fun ys => inr (y :: ys)))
  end.

(** [{"name": tool.name, "description": tool.description,
     "input_schema": tool.inputSchema}] *)
Definition tool_as_entry (tool : Tool) : tool_entry :=
  {| e_name := tool_name tool;
     e_description := tool_description tool;
     e_input_schema := tool_inputSchema tool |}.

Section Formatting.
Variable rt : Runtime.

(** [str(v)], which is how an f-string renders a value. *)
Definition py_str (v : pyvalue) : text :=
  match v with
  | PStr s => s
  | _ => py_repr rt v
  end.

Definition str_optional (d : option text) : text :=
  match d with
  | Some s => s
  | None => str "None"
  end.

Definition system_msg_base : text :=
  str "You are a helpful assistant. "
  ++ str "If the user asks something that can be answered using a tool, respond with a tool call using the format:"
  ++ [LF]
  ++ str "[TOOL_CALL: tool_name {" ++ quoted "arg1" ++ str ": "
  ++ quoted "value1" ++ str ", " ++ quoted "arg2" ++ str ": "
  ++ quoted "value2" ++ str "}]" ++ [LF]
  ++ str "Always choose to use a tool if it is available, and do not ask the user follow-up questions first.".

Definition tool_info_header : text :=
  LF :: str "Available tools and their input schemas:" ++ [LF].

(** [f"{k}: {v['type']}"] *)
Definition input_field (kv : text * pyvalue) : result text :=
  result_bind (subscript (snd kv) (str "type")) (fun ty =>
  inr (fst kv ++ str ": " ++ py_str ty)).

(** [', '.join(... for k, v in tool['input_schema']['properties'].items())] *)
Definition input_fields (tool : tool_entry) : result text :=
  result_bind (subscript (e_input_schema tool) (str "properties"))
    (fun props =>
  result_bind (items props) (fun kvs =>
  result_bind (result_map input_field kvs) (fun fields =>
  inr (join (str ", ") fields)))).

(** [f"- {tool['name']}: {tool['description']} (Inputs: {input_fields})\n"] *)
Definition tool_line (tool : tool_entry) : result text :=
  result_bind (input_fields tool) (fun fields =>
  inr (str "- " ++ e_name tool ++ str ": "
       ++ str_optional (e_description tool)
       ++ str " (Inputs: " ++ fields ++ str ")" ++ [LF])).

(** The loop [for tool in available_tools: tool_info += ...]. *)
Fixpoint tool_info (acc : text) (tools : list tool_entry) : result text :=
  match tools with
  | [] => inr acc
  | tool :: rest =>
      result_bind (tool_line tool) (fun line =>
      tool_info (acc ++ line) rest)
  end.

(** The system message of [openai_chat]; [if available_tools:] is false
    for [None] and for the empty list. *)
Definition system_msg (available_tools : option (list tool_entry))
  : result text :=
  match available_tools with
  | None | Some [] => inr system_msg_base
  | Some tools =>
      result_bind (tool_info tool_info_header tools) (fun info =>
      inr (system_msg_base ++ [LF] ++ info))
  end.

(** [chat_messages] and the request [openai_chat] sends. *)
Definition chat_request (messages : list message)
    (available_tools : option (list tool_entry)) (max_tokens : Z)
  : result request :=
  result_bind (system_msg available_tools) (fun sys =>
  inr {| req_model := str "gpt-4o-mini";
         req_messages :=
           {| msg_role := System; msg_content := sys |} :: messages;
         req_max_tokens := max_tokens;
         req_temperature_tenths := 7 |}).
End Formatting.

(* ------------------------------------------------------------------ *)
(** ** The client *)

Declare Scope client_scope.
Delimit Scope client_scope with client.

Section Client.
Variable rt : Runtime.
Variable W : Type.
Variable caps : Capabilities W.

Record state := { world : W; log : list event }.

(** A computation may read and change the world, append to the log, and
    end with a value or with an exception; what it did before the
    exception stays done. *)
Definition M (A : Type) := state -> result A * state.

Definition ret {A} (a : A) : M A := fun st => (inr a, st).

Definition bind {A B} (m : M A) (f : A -> M B) : M B :=
  fun st =>
    match m st with
    | (inr a, st') => f a st'
    | (inl e, st') => (inl e, st')
    end.

Definition lift {A} (r : result A) : M A := fun st => (r, st).

(** [try: body except Exception as e: handler] *)
Definition try_except {A} (body : M A) (handler : exn -> M A) : M A :=
  fun st =>
    match body st with
    | (inr a, st') => (inr a, st')
    | (inl e, st') => handler e st'
    end.

Definition perform {A} (cap : W -> result A * W) (ev : result A -> event)
  : M A :=
  fun st =>
    let (r, w') := cap (world st) in
    (r, {| world := w'; log := log st ++ [ev r] |}).

(** [print(line)]; writing to the console is taken to succeed. *)
Definition print (line : text) : M unit :=
  fun st => (inr tt, {| world := world st; log := log st ++ [EvPrint line] |}).

Definition input (prompt : text) : M text :=
  perform (console_input caps prompt) (EvInput prompt).

Definition list_tools : M (list Tool) :=
  perform (session_list_tools caps) EvListTools.

Definition call_tool (name : text) (args : pyvalue) : M CallToolResult :=
  perform (session_call_tool caps name args) (EvCallTool name args).

Definition acreate (req : request) : M text :=
  perform (chat_completion caps req) (EvComplete req).

Notation "x <- m ;; k" := (bind m (fun x => k))
  (at level 61, m at next level, right associativity) : client_scope.
Notation "m ;; k" := (bind m (fun _ => k))
  (at level 61, right associativity) : client_scope.
#[local] Open Scope client_scope.

(** [for x in xs: acc = body(acc, x)] *)
Fixpoint for_each {A B} (body : B -> A -> M B) (xs : list A) (acc : B)
  : M B :=
  match xs with
  | [] => ret acc
  | x :: rest => acc' <- body acc x ;; for_each body rest acc'
  end.

Definition openai_chat (messages : list message)
    (available_tools : option (list tool_entry)) (max_tokens : Z)
  : M text :=
  req <- lift (chat_request rt messages available_tools max_tokens) ;;
  acreate req.

Definition default_max_tokens : Z := 1000.

Definition warning_sign : text := [9888; 65039]%N.   (* U+26A0 U+FE0F *)
Definition cross_mark : text := [10060]%N.           (* U+274C *)

(** The body of [for tool_name, tool_args_str in matches:]; the loop
    carries [messages] and [final_text]. *)
Definition dispatch (acc : list message * list text) (m : text * text)
  : M (list message * list text) :=
  let '(messages, final_text) := acc in
  let '(tool_name, tool_args_str) := m in
  print (LF :: str "Executing tool: " ++ tool_name) ;;
  tool_args <-
    try_except (lift (json_loads rt tool_args_str))
      (fun e =>
         print (cross_mark ++ str " Failed to parse tool arguments for "
                ++ tool_name ++ str ": " ++ exn_str rt e) ;;
         ret (PDict [])) ;;
  print (str "Tool arguments: " ++ py_str rt tool_args) ;;
  result <- call_tool tool_name tool_args ;;
  print (str "Tool execution result: "
         ++ firstn 100 (result_content result) ++ str "...") ;;
  let messages :=
    messages
    ++ [{| msg_role := Assistant;
           msg_content := str "[Tool " ++ tool_name ++ str " executed]" |}]
  in
  let messages :=
    messages
    ++ [{| msg_role := User; msg_content := result_content result |}] in
  followup_text <- openai_chat messages None default_max_tokens ;;
  print (LF :: str "Follow-up assistant response:" ++ [LF]
         ++ followup_text ++ [LF]) ;;
  ret (messages, final_text ++ [followup_text]).

Definition process_query (query : text) : M text :=
  print (LF :: str "Processing query: " ++ query) ;;
  let messages := [{| msg_role := User; msg_content := query |}] in
  response <- list_tools ;;
  let available_tools := map tool_as_entry response in
  print (str "Available tools: "
         ++ py_str rt (PList (map (fun tool => PStr (e_name tool))
                                available_tools))) ;;
  print (LF :: str "Making initial OpenAI API call...") ;;
  text_response <-
    openai_chat messages (Some available_tools) default_max_tokens ;;
  print (LF :: str "Assistant response:" ++ [LF] ++ text_response ++ [LF]) ;;
  let final_text := [text_response] in
  let matches := findall (isalnum rt) text_response in
  match matches with
  | [] => print (warning_sign
                 ++ str " No tool call detected in assistant response.")
  | _ => ret tt
  end ;;
  acc <- for_each dispatch matches (messages, final_text) ;;
  ret (join [LF] (snd acc)).

(** One turn of [while True:] in [chat_loop]: [false] is [break]. *)
Definition chat_loop_body : M bool :=
  try_except
    (line <- input (LF :: str "Query: ") ;;
     let query := str_strip rt line in
     if text_eqb (str_lower rt query) (str "quit") then ret false
     else
       response <- process_query query ;;
       print (LF :: response) ;;
       ret true)
    (fun e => print (LF :: str "Error: " ++ exn_str rt e) ;; ret true).

(** [turns] bounds how many turns of the loop are observed: [true] when
    the loop ended with [break] within them. *)
Fixpoint chat_loop_turns (turns : nat) : M bool :=
  match turns with
  | O => ret false
  | S turns' =>
      continue <- chat_loop_body ;;
      if continue then chat_loop_turns turns' else ret true
  end.

Definition chat_loop (turns : nat) : M bool :=
  print (LF :: str "MCP Client Started!") ;;
  print (str "Type your queries or 'quit' to exit.") ;;
  chat_loop_turns turns.
End Client.

(* ------------------------------------------------------------------ *)
(** ** The shape of a directive, in the words of the specification *)

Definition TOKEN_PREFIX : text := str "[TOOL_CALL: ".

(** [[TOOL_CALL: <name> <payload>]] *)
Definition directive_token (name payload : text) : text :=
  TOKEN_PREFIX ++ name ++ SPACE :: payload ++ [RBRACKET].

Definition mem (c : char) (s : text) : bool :=
  existsb (fun x => N.eqb x c) s.

(** A name is one or more word characters. *)
Definition is_name (word_alnum : char -> bool) (name : text) : bool :=
  match name with
  | [] => false
  | _ => forallb (in_class word_alnum Word) name
  end.

(** A payload is one or more characters on one line and ends at the first
    closing bracket that comes after its first character. *)
Definition is_payload (payload : text) : bool :=
  match payload with
  | [] => false
  | _ :: more => negb (mem LF payload) && negb (mem RBRACKET more)
  end.

(** The longest prefix made of characters of a class, and what follows. *)
Fixpoint span (f : char -> bool) (s : text) : text * text :=
  match s with
  | [] => ([], [])
  | x :: s' =>
      if f x then let (m, r) := span f s' in (x :: m, r) else ([], s)
  end.

(** The text up to the first closing bracket, when no line feed comes
    before it, and what follows the bracket. *)
Fixpoint until_bracket (s : text) : option (text * text) :=
  match s with
  | [] => None
  | x :: s' =>
      if (x =? RBRACKET)%N then Some ([], s')
      else if (x =? LF)%N then None
      else match until_bracket s' with
           | Some (p, r) => Some (x :: p, r)
           | None => None
           end
  end.

(* ------------------------------------------------------------------ *)
(** ** What a run of the client looks like from outside *)

Definition is_interaction (ev : event) : bool :=
  match ev with
  | EvPrint _ => false
  | _ => true
  end.

(** The interactions with the session, the model and the console input,
    without what is printed. *)
Definition interactions (evs : list event) : list event :=
  filter is_interaction evs.

Definition user_message (query : text) : message :=
  {| msg_role := User; msg_content := query |}.

(** The two history entries an executed directive leaves. *)
Definition executed_entries (name : text) (c : CallToolResult)
  : list message :=
  [ {| msg_role := Assistant;
       msg_content := str "[Tool " ++ name ++ str " executed]" |};
    {| msg_role := User; msg_content := result_content c |} ].

(** The request of a follow-up call: the bare system message in front of
    the history. *)
Definition followup_request (history : list message) : request :=
  {| req_model := str "gpt-4o-mini";
     req_messages :=
       {| msg_role := System; msg_content := system_msg_base |} :: history;
     req_max_tokens := 1000;
     req_temperature_tenths := 7 |}.

(** What follows the payload in the pattern. *)
Definition after_payload (w : char -> bool)
  : text -> option (list text * text) :=
  match_here w [Literal RBRACKET].

Section Traces.
Variable rt : Runtime.

(** The arguments a directive is dispatched with. *)
Definition decoded_args (raw : text) : pyvalue :=
  match json_loads rt raw with
  | inr v => v
  | inl _ => PDict []
  end.

(** A directive as the session receives it. *)
Definition dispatched (d : text * text) : text * pyvalue :=
  (fst d, decoded_args (snd d)).

(** The interactions of the dispatch loop over the directives [ds],
    from the history [h] and the transcript [segs], and how it ends. *)
Inductive loop_trace
  : list (text * text) -> list message -> list text ->
    list event -> result (list message * list text) -> Prop :=
| loop_done h segs :
    loop_trace [] h segs [] (inr (h, segs))
| loop_tool_fails n raw ds h segs e :
    loop_trace ((n, raw) :: ds) h segs
      [EvCallTool n (decoded_args raw) (inl e)] (inl e)
| loop_followup_fails n raw ds h segs c e :
    loop_trace ((n, raw) :: ds) h segs
      [EvCallTool n (decoded_args raw) (inr c);
       EvComplete (followup_request (h ++ executed_entries n c)) (inl e)]
      (inl e)
| loop_round n raw ds h segs c t evs r :
    loop_trace ds (h ++ executed_entries n c) (segs ++ [t]) evs r ->
    loop_trace ((n, raw) :: ds) h segs
      (EvCallTool n (decoded_args raw) (inr c)
       :: EvComplete (followup_request (h ++ executed_entries n c)) (inr t)
       :: evs) r.

Definition transcript_of (r : result (list message * list text))
  : result text :=
  match r with
  | inl e => inl e
  | inr acc => inr (join [LF] (snd acc))
  end.

Definition initial_request (query : text) (tools : list Tool)
  : result request :=
  chat_request rt [user_message query] (Some (map tool_as_entry tools))
    1000.

(** The interactions of one [process_query] and its outcome. *)
Inductive query_trace (query : text)
  : list event -> result text -> Prop :=
| query_list_fails e :
    query_trace query [EvListTools (inl e)] (inl e)
| query_prompt_fails tools e :
    initial_request query tools = inl e ->
    query_trace query [EvListTools (inr tools)] (inl e)
| query_model_fails tools req e :
    initial_request query tools = inr req ->
    query_trace query [EvListTools (inr tools); EvComplete req (inl e)]
      (inl e)
| query_answered tools req initial evs r :
    initial_request query tools = inr req ->
    loop_trace (findall (isalnum rt) initial) [user_message query]
      [initial] evs r ->
    query_trace query
      (EvListTools (inr tools) :: EvComplete req (inr initial) :: evs)
      (transcript_of r).

(** The interactions of the rounds of a loop in which nothing fails:
    round [i] calls the tool of directive [i] and then the model, with
    the history grown by the two entries of the round. *)
Fixpoint expected_rounds (h : list message) (ds : list (text * text))
    (rounds : list (CallToolResult * text)) : list event :=
  match ds, rounds with
  | (n, raw) :: ds', (c, t) :: rounds' =>
      let h' := h ++ executed_entries n c in
      EvCallTool n (decoded_args raw) (inr c)
      :: EvComplete (followup_request h') (inr t)
      :: expected_rounds h' ds' rounds'
  | _, _ => []
  end.
End Traces.

Section Runs.
Variable rt : Runtime.
Variable W : Type.
Variable caps : Capabilities W.

(** What a computation returns and what it adds to the log. *)
Definition outcome {A} (m : M W A) (st : state W) : result A :=
  fst (m st).

Definition events {A} (m : M W A) (st : state W) : list event :=
  skipn (length (log st)) (log (snd (m st))).

(** [m] started in [st] ends with [r] in the world [w'] after adding
    [evs] to the log. *)
Definition runs_to {A} (m : M W A) (st : state W) (r : result A)
    (w' : W) (evs : list event) : Prop :=
  m st = (r, {| world := w'; log := log st ++ evs |}).

(** The capabilities a theorem may assume not to fail. *)
Definition tools_reliable : Prop :=
  forall name args w, exists c w',
    session_call_tool caps name args w = (inr c, w').

Definition model_reliable : Prop :=
  forall req w, exists t w', chat_completion caps req w = (inr t, w').

(** The session lists [tools], the prompt is built, and the model
    answers [initial]: the first two interactions of a query. *)
Definition answers_first (query : text) (st : state W)
    (tools : list Tool) (initial : text) : Prop :=
  exists w1 req w2,
    session_list_tools caps (world st) = (inr tools, w1)
    /\ initial_request rt query tools = inr req
    /\ chat_completion caps req w1 = (inr initial, w2).
End Runs.


(** The directives of a run and what became of them, read off its
    events. *)
Definition calls (evs : list event) : list (text * pyvalue) :=
  flat_map (fun ev =>
              match ev with
              | EvCallTool n a _ => [(n, a)]
              | _ => []
              end) evs.


(** The requests sent to the model. *)
Definition requests (evs : list event) : list request :=
  flat_map (fun ev =>
              match ev with
              | EvComplete req _ => [req]
              | _ => []
              end) evs.






(** No directive token occurs anywhere in the text. *)
Definition token_free (word_alnum : char -> bool) (s : text) : Prop :=
  forall before name payload rest,
    s = before ++ directive_token name payload ++ rest ->
    is_name word_alnum name = true ->
    is_payload payload = true ->
    False.

Definition is_dict (v : pyvalue) : bool :=
  match v with
  | PDict _ => true
  | _ => false
  end.

(** [needle in s] *)
Fixpoint starts_with (prefix s : text) : bool :=
  match prefix, s with
  | [], _ => true
  | c :: prefix', x :: s' => (x =? c)%N && starts_with prefix' s'
  | _ :: _, [] => false
  end.

Fixpoint contains (needle s : text) : bool :=
  starts_with needle s
  || match s with
     | [] => false
     | _ :: s' => contains needle s'
     end.

(** The system message shows the list of tools. *)
Definition has_tool_block (sys : text) : bool :=
  contains (str "Available tools and their input schemas:") sys.

(** The properties of an input schema, each with its declared type: what
    [input_fields] needs to find. *)
Definition typed_property (kv : text * pyvalue) (field : text * pyvalue)
  : Prop :=
  fst field = fst kv
  /\ exists entries,
       snd kv = PDict entries /\ assoc (str "type") entries = Some (snd field).

Definition schema_fields (tool : tool_entry)
    (fields : list (text * pyvalue)) : Prop :=
  exists entries props,
    e_input_schema tool = PDict entries
    /\ assoc (str "properties") entries = Some (PDict props)
    /\ Forall2 typed_property props fields.

(** The line of the tool block for a tool with the given typed
    properties. *)
Definition rendered_line (rt : Runtime) (tool : tool_entry)
    (fields : list (text * pyvalue)) : text :=
  str "- " ++ e_name tool ++ str ": " ++ str_optional (e_description tool)
  ++ str " (Inputs: "
  ++ join (str ", ")
       (map (fun f => fst f ++ str ": " ++ py_str rt (snd f)) fields)
  ++ str ")" ++ [LF].

Fixpoint rendered_lines (rt : Runtime) (tools : list tool_entry)
    (fields : list (list (text * pyvalue))) : text :=
  match tools, fields with
  | tool :: tools', fs :: fields' =>
      rendered_line rt tool fs ++ rendered_lines rt tools' fields'
  | _, _ => []
  end.

(** The request [openai_chat] builds around a system message. *)
Definition request_with (sys : text) (history : list message)
    (max_tokens : Z) : request :=
  {| req_model := str "gpt-4o-mini";
     req_messages := {| msg_role := System; msg_content := sys |} :: history;
     req_max_tokens := max_tokens;
     req_temperature_tenths := 7 |}.

(* ------------------------------------------------------------------ *)
(** ** A reference runtime

    An instance of [Runtime] for the examples: ASCII character classes
    and case, and a decoder for JSON texts.  The decoder follows the JSON
    grammar; a later duplicate of a key replaces the earlier value, a
    number with a fraction or an exponent is kept as its lexeme, and a
    [\u] escape is rejected. *)

Definition is_ws (c : char) : bool :=
  ((c =? 32) || (c =? 9) || (c =? 10) || (c =? 13))%N.

Definition is_digit (c : char) : bool := ((48 <=? c) && (c <=? 57))%N.

Fixpoint skip_ws (s : text) : text :=
  match s with
  | [] => []
  | c :: s' => if is_ws c then skip_ws s' else s
  end.

Definition unescape (c : char) : option char :=
  if (c =? 34)%N then Some 34%N            (* the quote *)
  else if (c =? 92)%N then Some 92%N       (* the backslash *)
  else if (c =? 47)%N then Some 47%N       (* the slash *)
  else if (c =? 98)%N then Some 8%N        (* \b *)
  else if (c =? 102)%N then Some 12%N      (* \f *)
  else if (c =? 110)%N then Some 10%N      (* \n *)
  else if (c =? 114)%N then Some 13%N      (* \r *)
  else if (c =? 116)%N then Some 9%N       (* \t *)
  else None.

(** The characters of a string after its opening quote. *)
Fixpoint json_string (s : text) : option (text * text) :=
  match s with
  | [] => None
  | c :: s' =>
      if (c =? QUOTE)%N then Some ([], s')
      else if (c <? 32)%N then None
      else if (c =? 92)%N then
        match s' with
        | e :: s'' =>
            match unescape e, json_string s'' with
            | Some x, Some (t, r) => Some (x :: t, r)
            | _, _ => None
            end
        | [] => None
        end
      else
        match json_string s' with
        | Some (t, r) => Some (c :: t, r)
        | None => None
        end
  end.

Definition digits_value (ds : text) : Z :=
  fold_left (fun a d => (10 * a + (Z.of_N d - 48))%Z) ds 0%Z.

Definition json_number (s : text) : option (pyvalue * text) :=
  let (sign, s1) :=
    match s with
    | 45%N :: s' => ([45%N], s')
    | _ => ([], s)
    end in
  let (int_digits, s2) :=
    match span is_digit s1 with
    | (48%N :: more, r) => ([48%N], more ++ r)
    | found => found
    end in
  match int_digits with
  | [] => None
  | _ =>
      let (frac, s3) :=
        match s2 with
        | 46%N :: r =>
            match span is_digit r with
            | ([], _) => ([], s2)
            | (ds, r') => (46%N :: ds, r')
            end
        | _ => ([], s2)
        end in
      let (expo, s4) :=
        match s3 with
        | e :: r =>
            if ((e =? 101) || (e =? 69))%N then
              let (esign, r1) :=
                match r with
                | sg :: r' =>
                    if ((sg =? 43) || (sg =? 45))%N then ([sg], r')
                    else ([], r)
                | [] => ([], r)
                end in
              match span is_digit r1 with
              | ([], _) => ([], s3)
              | (ds, r') => (e :: esign ++ ds, r')
              end
            else ([], s3)
        | [] => ([], s3)
        end in
      match frac, expo with
      | [], [] =>
          let n := digits_value int_digits in
          Some (PInt (match sign with [] => n | _ => - n end)%Z, s4)
      | _, _ => Some (PFloat (sign ++ int_digits ++ frac ++ expo), s4)
      end
  end.

Fixpoint dict_set (entries : list (text * pyvalue)) (k : text)
    (v : pyvalue) : list (text * pyvalue) :=
  match entries with
  | [] => [(k, v)]
  | (k', v') :: rest =>
      if text_eqb k' k then (k', v) :: rest
      else (k', v') :: dict_set rest k v
  end.

Fixpoint json_value (fuel : nat) (s : text) : option (pyvalue * text) :=
  match fuel with
  | O => None
  | S f =>
      match s with
      | [] => None
      | c :: s' =>
          if (c =? QUOTE)%N then
            match json_string s' with
            | Some (t, r) => Some (PStr t, r)
            | None => None
            end
          else if (c =? 123)%N then
            match skip_ws s' with
            | 125%N :: r => Some (PDict [], r)
            | s1 => json_members f s1 []
            end
          else if (c =? LBRACKET)%N then
            match skip_ws s' with
            | 93%N :: r => Some (PList [], r)
            | s1 => json_elements f s1 []
            end
          else if starts_with (str "null") s then Some (PNone, skipn 4 s)
          else if starts_with (str "true") s then
            Some (PBool true, skipn 4 s)
          else if starts_with (str "false") s then
            Some (PBool false, skipn 5 s)
          else json_number s
      end
  end
with json_members (fuel : nat) (s : text) (acc : list (text * pyvalue))
  : option (pyvalue * text) :=
  match fuel with
  | O => None
  | S f =>
      match s with
      | 34%N :: s' =>
          match json_string s' with
          | Some (k, r) =>
              match skip_ws r with
              | 58%N :: r1 =>
                  match json_value f (skip_ws r1) with
                  | Some (v, r2) =>
                      match skip_ws r2 with
                      | 125%N :: r3 => Some (PDict (dict_set acc k v), r3)
                      | 44%N :: r3 =>
                          json_members f (skip_ws r3) (dict_set acc k v)
                      | _ => None
                      end
                  | None => None
                  end
              | _ => None
              end
          | None => None
          end
      | _ => None
      end
  end
with json_elements (fuel : nat) (s : text) (acc : list pyvalue)
  : option (pyvalue * text) :=
  match fuel with
  | O => None
  | S f =>
      match json_value f s with
      | Some (v, r) =>
          match skip_ws r with
          | 93%N :: r1 => Some (PList (acc ++ [v]), r1)
          | 44%N :: r1 => json_elements f (skip_ws r1) (acc ++ [v])
          | _ => None
          end
      | None => None
      end
  end.

Definition json_decode (s : text) : result pyvalue :=
  match json_value (2 + length s) (skip_ws s) with
  | Some (v, r) =>
      match skip_ws r with
      | [] => inr v
      | _ => inl (Raised (str "Extra data"))
      end
  | None => inl (Raised (str "Expecting value"))
  end.

Definition decimal (n : Z) : text :=
  str (DecimalString.NilZero.string_of_int (Z.to_int n)).

Fixpoint ref_repr (v : pyvalue) : text :=
  match v with
  | PNone => str "None"
  | PBool true => str "True"
  | PBool false => str "False"
  | PInt n => decimal n
  | PFloat lexeme => lexeme
  | PStr s => str "'" ++ s ++ str "'"
  | PList items => str "[" ++ join (str ", ") (map ref_repr items) ++ str "]"
  | PDict entries =>
      str "{"
      ++ join (str ", ")
           (map (fun kv => str "'" ++ fst kv ++ str "': " ++ ref_repr (snd kv))
              entries)
      ++ str "}"
  end.

Definition ref_exn_str (e : exn) : text :=
  match e with
  | KeyError key => str "'" ++ key ++ str "'"
  | TypeError => str "TypeError"
  | AttributeError => str "AttributeError"
  | Raised msg => msg
  end.

Fixpoint lstrip (s : text) : text :=
  match s with
  | [] => []
  | c :: s' => if is_ws c then lstrip s' else s
  end.

Definition ascii_strip (s : text) : text :=
  rev (lstrip (rev (lstrip s))).

Definition ascii_lower (s : text) : text :=
  map (fun c => if ((65 <=? c) && (c <=? 90))%N then (c + 32)%N else c) s.

Definition ref_runtime : Runtime :=
  {| isalnum := ascii_alnum;
     py_repr := ref_repr;
     json_loads := json_decode;
     exn_str := ref_exn_str;
     str_strip := ascii_strip;
     str_lower := ascii_lower |}.

(* ------------------------------------------------------------------ *)
(** ** Scripted worlds

    A world counts the model calls and the console reads made so far;
    the model gives its scripted answers in order and the console its
    scripted lines. *)

Record script := {
  listed : list Tool;            (* what list_tools returns *)
  answers : list text;           (* the answers of the model, in order *)
  typed : list text;             (* the lines typed at the prompt *)
  broken : list text             (* the tools whose call raises *)
}.

Definition scripted_world := (nat * nat)%type.

Definition scripted (sc : script) : Capabilities scripted_world :=
  {| session_list_tools := fun w => (inr (listed sc), w);
     session_call_tool := fun name args w =>
       (if existsb (text_eqb name) (broken sc)
        then inl (Raised (str "tool failed: " ++ name))
        else inr {| result_content := str "result of " ++ name |}, w);
     chat_completion := fun req w =>
       (inr (nth (fst w) (answers sc) (str "Done.")), (S (fst w), snd w));
     console_input := fun prompt w =>
       (inr (nth (snd w) (typed sc) (str "quit")), (fst w, S (snd w))) |}.

(** The same with a session whose tools never fail. *)
Definition scripted_reliable (sc : script) : Capabilities scripted_world :=
  {| session_list_tools := fun w => (inr (listed sc), w);
     session_call_tool := fun name args w =>
       (inr {| result_content := str "result of " ++ name |}, w);
     chat_completion := chat_completion (scripted sc);
     console_input := console_input (scripted sc) |}.

Definition start : state scripted_world := {| world := (0, 0); log := [] |}.

(* ------------------------------------------------------------------ *)
(** ** Examples *)

(** The payload of the example of the specification: the mapping of
    [city] to [Paris], as JSON text and decoded. *)
Definition example_payload : text :=
  str "{" ++ quoted "city" ++ str ": " ++ quoted "Paris" ++ str "}".

Definition city_paris : pyvalue := PDict [(str "city", PStr (str "Paris"))].

Definition example_text : text :=
  str "Sure! [TOOL_CALL: get_weather " ++ example_payload ++ str "]".

Definition weather_tool : Tool :=
  {| tool_name := str "get_weather";
     tool_description := Some (str "Weather for a city");
     tool_inputSchema :=
       PDict
         [(str "type", PStr (str "object"));
          (str "properties",
           PDict
             [(str "city", PDict [(str "type", PStr (str "string"))]);
              (str "days", PDict [(str "type", PStr (str "integer"))])])] |}.

(** A tool with an optional parameter, whose schema gives alternatives
    in place of a type. *)
Definition untyped_tool : Tool :=
  {| tool_name := str "search";
     tool_description := None;
     tool_inputSchema :=
       PDict
         [(str "type", PStr (str "object"));
          (str "properties",
           PDict
             [(str "limit",
               PDict
                 [(str "anyOf",
                   PList [PDict [(str "type", PStr (str "integer"))];
                          PDict [(str "type", PStr (str "null"))]])])])] |}.

(** The model answers with two directives; the first names a tool the
    session does not list and its payload is not JSON, the payload of
    the second is a JSON number. *)
Definition two_directives : text :=
  str "On it. [TOOL_CALL: lookup {city: Paris}] then [TOOL_CALL: get_weather 42]".

Definition two_directives_script : script :=
  {| listed := [weather_tool];
     answers := [two_directives; str "Looked up."; str "It is sunny."];
     typed := [str "  weather in Paris?  "];
     broken := [] |}.

(** The same conversation with a session whose second tool raises. *)
Definition second_tool_fails_script : script :=
  {| listed := [weather_tool];
     answers := [two_directives; str "Looked up."; str "It is sunny."];
     typed := [str "  weather in Paris?  "];
     broken := [str "get_weather"] |}.

(** The model answers in plain words. *)
Definition plain_answer_script : script :=
  {| listed := [weather_tool];
     answers := [str "Hello! How can I help?"];
     typed := [str "hello"];
     broken := [] |}.

(* ------------------------------------------------------------------ *)
(** ** The life cycle of the client

    [connect_to_server], [cleanup] and [main].  The client object holds
    the exit stack and the session; the transport, the session's
    [initialize] and the closing of the exit stack are further
    capabilities. *)

(** [suffix] is the end of [s]: [s.endswith(suffix)]. *)
Definition ends_with (suffix s : text) : bool :=
  starts_with (rev suffix) (rev s).

(** The contexts [connect_to_server] enters on the exit stack. *)
Inductive resource := Transport | Session.

(** [StdioServerParameters(command=..., args=..., env=...)] *)
Record server_params := {
  sp_command : text;
  sp_args : list text;
  sp_env : option (list (text * text))
}.

Record Lifecycle (W : Type) := {
  (* entering stdio_client(server_params): the server process starts *)
  stdio_client : server_params -> W -> result unit * W;
  (* entering ClientSession(self.stdio, self.write) *)
  client_session : W -> result unit * W;
  (* session.initialize() *)
  session_initialize : W -> result unit * W;
  (* exit_stack.aclose(), with the contexts on the stack, newest first *)
  exit_stack_aclose : list resource -> W -> result unit * W
}.

(** What the client does over its life: the interactions of the
    conversation and the ones with the life-cycle capabilities. *)
Inductive life_event :=
| LBase (ev : event)
| LSpawn (params : server_params) (r : result unit)
| LSession (r : result unit)
| LInitialize (r : result unit)
| LClose (stack : list resource) (r : result unit).

(** How a run of [main] ends. *)
Inductive main_outcome :=
| Exits (code : Z)         (* sys.exit(code) *)
| Returns                  (* main returns *)
| Raises (e : exn)         (* an exception leaves main *)
| StillLooping.            (* the observed turns of the loop ran out *)

Definition check_mark : text := [10003]%N.           (* U+2713 *)

Section Lifecycle.
Variable rt : Runtime.
Variable W : Type.
Variable caps : Capabilities W.
Variable life : Lifecycle W.

(** The client object with the world around it: [c_exit_stack] is
    [self.exit_stack] (newest context first), [c_session] tells whether
    [self.session] is set. *)
Record client := {
  c_world : W;
  c_log : list life_event;
  c_exit_stack : list resource;
  c_session : bool
}.

(** [MCPClient()] *)
Definition new_client (w : W) : client :=
  {| c_world := w; c_log := []; c_exit_stack := []; c_session := false |}.

Definition L (A : Type) := client -> result A * client.

Definition lret {A} (a : A) : L A := fun c => (inr a, c).

Definition lraise {A} (e : exn) : L A := fun c => (inl e, c).

Definition lbind {A B} (m : L A) (f : A -> L B) : L B :=
  fun c =>
    match m c with
    | (inr a, c') => f a c'
    | (inl e, c') => (inl e, c')
    end.

(** [try: body except Exception as e: handler] *)
Definition ltry {A} (body : L A) (handler : exn -> L A) : L A :=
  fun c =>
    match body c with
    | (inr a, c') => (inr a, c')
    | (inl e, c') => handler e c'
    end.

(** A computation of the conversation, run by the client object. *)
Definition embed {A} (m : M W A) : L A :=
  fun c =>
    let (r, st') := m {| world := c_world c; log := [] |} in
    (r, {| c_world := world st';
           c_log := c_log c ++ map LBase (log st');
           c_exit_stack := c_exit_stack c;
           c_session := c_session c |}).

Definition lprint (line : text) : L unit := embed (print line).

(** [await self.exit_stack.enter_async_context(cm)]: the context is on
    the stack once it has been entered. *)
Definition enter_async_context (res : resource)
    (enter : W -> result unit * W) (ev : result unit -> life_event)
  : L unit :=
  fun c =>
    let (r, w') := enter (c_world c) in
    (r, {| c_world := w';
           c_log := c_log c ++ [ev r];
           c_exit_stack :=
             match r with
             | inr _ => res :: c_exit_stack c
             | inl _ => c_exit_stack c
             end;
           c_session := c_session c |}).

(** [self.session = ...] *)
Definition set_session : L unit :=
  fun c =>
    (inr tt, {| c_world := c_world c;
                c_log := c_log c;
                c_exit_stack := c_exit_stack c;
                c_session := true |}).

Definition initialize : L unit :=
  fun c =>
    let (r, w') := session_initialize life (c_world c) in
    (r, {| c_world := w';
           c_log := c_log c ++ [LInitialize r];
           c_exit_stack := c_exit_stack c;
           c_session := c_session c |}).

(** [await self.exit_stack.aclose()]: the stack is empty afterwards,
    whether the closing raised or not. *)
Definition aclose : L unit :=
  fun c =>
    let (r, w') := exit_stack_aclose life (c_exit_stack c) (c_world c) in
    (r, {| c_world := w';
           c_log := c_log c ++ [LClose (c_exit_stack c) r];
           c_exit_stack := [];
           c_session := c_session c |}).

Notation "x <- m ;; k" := (lbind m (fun x => k))
  (at level 61, m at next level, right associativity) : client_scope.
Notation "m ;; k" := (lbind m (fun _ => k))
  (at level 61, right associativity) : client_scope.
#[local] Open Scope client_scope.

Definition connect_to_server (server_script_path : text) : L unit :=
  lprint (LF :: str "Attempting to connect to server: "
          ++ server_script_path) ;;
  let is_python := ends_with (str ".py") server_script_path in
  let is_js := ends_with (str ".js") server_script_path in
  if negb (is_python || is_js) then
    lraise (Raised (str "Server script must be a .py or .js file"))
  else
    let command := if is_python then str "python" else str "node" in
    lprint (str "Starting " ++ command ++ str " server...") ;;
    let server_params :=
      {| sp_command := command;
         sp_args := [server_script_path];
         sp_env := None |} in
    ltry
      (enter_async_context Transport (stdio_client life server_params)
         (LSpawn server_params) ;;
       enter_async_context Session (client_session life) LSession ;;
       set_session ;;
       lprint (LF :: check_mark
               ++ str " Server connection established successfully!") ;;
       initialize ;;
       lprint (check_mark ++ str " Server initialized") ;;
       tools <- embed (list_tools caps) ;;
       lprint (LF :: str "Connected to server with tools:" ++ [SPACE]
               ++ py_str rt (PList (map (fun tool => PStr (tool_name tool))
                                      tools))))
      (fun e =>
         lprint (LF :: cross_mark ++ str " Failed to connect to server: "
                 ++ exn_str rt e) ;;
         lraise e).

Definition cleanup : L unit :=
  lprint (LF :: str "Cleaning up and disconnecting from server...") ;;
  ltry
    (aclose ;;
     lprint (check_mark ++ str " Successfully disconnected from server"))
    (fun e =>
       lprint (cross_mark ++ str " Error during cleanup: " ++ exn_str rt e)).

(** [finally: await client.cleanup()] after a body that ended with
    [ended]: an exception of the cleanup replaces it. *)
Definition finally_cleanup (ended : main_outcome) (c : client)
  : main_outcome * client :=
  match cleanup c with
  | (inr _, c') => (ended, c')
  | (inl e, c') => (Raises e, c')
  end.

(** [main] with [sys.argv] and the world it starts in; [turns] bounds the
    turns of the loop that are observed. *)
Definition main (argv : list text) (turns : nat) (w : W)
  : main_outcome * client :=
  if length argv <? 2 then
    match lprint (str "Usage: python client.py <path_to_server_script>")
            (new_client w) with
    | (_, c) => (Exits 1, c)
    end
  else
    let client := new_client w in
    match connect_to_server (nth 1 argv []) client with
    | (inl e, c) => finally_cleanup (Raises e) c
    | (inr _, c) =>
        match embed (chat_loop rt caps turns) c with
        | (inl e, c') => finally_cleanup (Raises e) c'
        | (inr true, c') => finally_cleanup Returns c'
        | (inr false, c') => (StillLooping, c')
        end
    end.

(** What a life-cycle computation adds to the log. *)
Definition life_events {A} (m : L A) (c : client) : list life_event :=
  skipn (length (c_log c)) (c_log (snd (m c))).
End Lifecycle.

Definition is_close (ev : life_event) : bool :=
  match ev with
  | LClose _ _ => true
  | _ => false
  end.

(** An interaction that ended with the exception [e]. *)
Definition failed_with (e : exn) (ev : event) : Prop :=
  match ev with
  | EvInput _ (inl x) | EvListTools (inl x) | EvComplete _ (inl x)
  | EvCallTool _ _ (inl x) => x = e
  | _ => False
  end.

(** A console that is closed: every read raises. *)
Definition closed_console : Capabilities scripted_world :=
  {| session_list_tools := fun w => (inr [], w);
     session_call_tool := fun name args w =>
       (inr {| result_content := [] |}, w);
     chat_completion := fun req w => (inr [], w);
     console_input := fun prompt w =>
       (inl (Raised (str "EOF when reading a line")), w) |}.

(** Life-cycle capabilities that fail where the script says. *)
Record life_script := {
  spawn_fails : bool;
  session_fails : bool;
  initialize_fails : bool;
  close_fails : bool
}.

Definition scripted_step (fails : bool) (what : text)
  : scripted_world -> result unit * scripted_world :=
  fun w => (if fails then inl (Raised what) else inr tt, w).

Definition scripted_life (ls : life_script) : Lifecycle scripted_world :=
  {| stdio_client := fun params =>
       scripted_step (spawn_fails ls) (str "cannot start the server");
     client_session :=
       scripted_step (session_fails ls) (str "cannot open the session");
     session_initialize :=
       scripted_step (initialize_fails ls) (str "handshake failed");
     exit_stack_aclose := fun stack =>
       scripted_step (close_fails ls) (str "cannot close") |}.

Definition all_well : life_script :=
  {| spawn_fails := false; session_fails := false;
     initialize_fails := false; close_fails := false |}.

(** The user asks one question and quits. *)
Definition ask_and_quit_script : script :=
  {| listed := [weather_tool];
     answers := [str "Hello! How can I help?"];
     typed := [str "hello"; str "  QUIT "];
     broken := [] |}.

(** The scripted world with a model that raises from its [n]-th call
    on (counting from 0). *)
Definition model_fails_after (n : nat) (sc : script)
  : Capabilities scripted_world :=
  {| session_list_tools := session_list_tools (scripted sc);
     session_call_tool := session_call_tool (scripted sc);
     chat_completion := fun req w =>
       if n <=? fst w then (inl (Raised (str "model unavailable")), w)
       else chat_completion (scripted sc) req w;
     console_input := console_input (scripted sc) |}.

(** The history after the first directive of [two_directives] ran. *)
Definition after_lookup : list message :=
  [user_message (str "weather in Paris?")]
  ++ executed_entries (str "lookup")
       {| result_content := str "result of lookup" |}.

(** The conversation of [two_directives_script] with a session whose
    first tool raises. *)
Definition first_tool_fails_script : script :=
  {| listed := [weather_tool];
     answers := [two_directives; str "Looked up."; str "It is sunny."];
     typed := [str "  weather in Paris?  "];
     broken := [str "lookup"] |}.

(** A session that lists a tool with an untyped property. *)
Definition untyped_catalog_script : script :=
  {| listed := [weather_tool; untyped_tool];
     answers := [str "Hello! How can I help?"];
     typed := [str "hello"];
     broken := [] |}.

(** The parameters [connect_to_server] starts the server with. *)
Definition server_params_for (path : text) : server_params :=
  {| sp_command :=
       if ends_with (str ".py") path then str "python" else str "node";
     sp_args := [path];
     sp_env := None |}.

(** The printed line [line], as the client object logs it. *)
Definition printed (line : text) : life_event := LBase (EvPrint line).

(** A step of the connection that raised [e]. *)
Definition step_failed_with (e : exn) (ev : life_event) : Prop :=
  match ev with
  | LSpawn _ (inl x) | LSession (inl x) | LInitialize (inl x)
  | LBase (EvListTools (inl x)) => x = e
  | _ => False
  end.

(** A printed line, or a step of the connection that did not raise. *)
Definition went_well (ev : life_event) : bool :=
  match ev with
  | LBase (EvPrint _) | LBase (EvListTools (inr _))
  | LSpawn _ (inr _) | LSession (inr _) | LInitialize (inr _) => true
  | _ => false
  end.

(** The contexts that are entered when the connection reaches [step]. *)
Definition entered_before (step : life_event) : list resource :=
  match step with
  | LSpawn _ _ => []
  | LSession _ => [Transport]
  | _ => [Session; Transport]
  end.

Definition is_console_read (ev : life_event) : bool :=
  match ev with
  | LBase (EvInput _ _) => true
  | _ => false
  end.

(** What a connection in which every step succeeds logs, when the
    session lists [tools]. *)
Definition connected_log (rt : Runtime) (path : text) (tools : list Tool)
  : list life_event :=
  [printed (LF :: str "Attempting to connect to server: " ++ path);
   printed (str "Starting " ++ sp_command (server_params_for path)
            ++ str " server...");
   LSpawn (server_params_for path) (inr tt);
   LSession (inr tt);
   printed (LF :: check_mark
            ++ str " Server connection established successfully!");
   LInitialize (inr tt);
   printed (check_mark ++ str " Server initialized");
   LBase (EvListTools (inr tools));
   printed (LF :: str "Connected to server with tools:" ++ [SPACE]
            ++ py_str rt (PList (map (fun tool => PStr (tool_name tool))
                                   tools)))].

(** What [cleanup] logs when closing [stack] ends with [r]. *)
Definition cleanup_log (rt : Runtime) (stack : list resource)
    (r : result unit) : list life_event :=
  [printed (LF :: str "Cleaning up and disconnecting from server...");
   LClose stack r;
   printed
     match r with
     | inr _ => check_mark ++ str " Successfully disconnected from server"
     | inl e => cross_mark ++ str " Error during cleanup: " ++ exn_str rt e
     end].

(** A session that cannot be opened, and a stack that cannot be closed. *)
Definition session_breaks : life_script :=
  {| spawn_fails := false; session_fails := true;
     initialize_fails := false; close_fails := false |}.

Definition close_breaks : life_script :=
  {| spawn_fails := false; session_fails := false;
     initialize_fails := false; close_fails := true |}.

(** [sys.argv] of [python client.py server.py] *)
Definition argv_py : list text := [str "client.py"; str "server.py"].

(** The line [process_query] prints when the scan finds no directive. *)
Definition no_tool_call_line : text :=
  warning_sign ++ str " No tool call detected in assistant response.".

(** A printed line that starts with the warning sign. *)
Definition is_warning (ev : event) : bool :=
  match ev with
  | EvPrint (c :: _) => (c =? 9888)%N
  | _ => false
  end.



(* ================================================================== *)
(** * Theorems *)

Unset Implicit Arguments.

(* ------------------------------------------------------------------ *)
(** ** Facts about the matcher *)


Section RegexFacts.
Variable w : char -> bool.
Hypothesis space_not_alnum : w SPACE = false.

Lemma match_here_literals (l : text) (p : list node) (s : text) :
  match_here w (map Literal l ++ p) (l ++ s) = match_here w p s.
Proof.
  induction l as [|c l IH]; simpl; [reflexivity|].
  rewrite N.eqb_refl. exact IH.
Qed.

Lemma match_here_literals_inv (l : text) (p : list node) (s : text) r :
  match_here w (map Literal l ++ p) s = Some r ->
  exists s', s = l ++ s' /\ match_here w p s' = Some r.
Proof.
  revert s. induction l as [|c l IH]; simpl; intros s H.
  - exists s. split; [reflexivity | exact H].
  - destruct s as [|x s]; [discriminate|].
    destruct (N.eqb_spec x c) as [->|]; [|discriminate].
    destruct (IH _ H) as (s' & -> & H'). exists s'. split; auto.
Qed.

Lemma span_nil_l (f : char -> bool) (s r : text) :
  span f s = ([], r) -> r = s.
Proof.
  destruct s as [|x s]; simpl; [congruence|].
  destruct (f x); [destruct (span f s); discriminate | congruence].
Qed.

Lemma span_app (f : char -> bool) (s m r : text) :
  span f s = (m, r) ->
  s = m ++ r /\ forallb f m = true
  /\ match r with [] => True | y :: _ => f y = false end.
Proof.
  revert m r. induction s as [|x s IH]; simpl; intros m r H.
  - inversion H. simpl. auto.
  - destruct (f x) eqn:Hx.
    + destruct (span f s) as [m' r'] eqn:Hs. inversion H; subst.
      destruct (IH _ _ eq_refl) as (-> & Hm & Hr).
      simpl. rewrite Hx. auto.
    + inversion H; subst. simpl. rewrite Hx. auto.
Qed.

Lemma span_run (f : char -> bool) (m r : text) :
  forallb f m = true ->
  match r with [] => True | y :: _ => f y = false end ->
  span f (m ++ r) = (m, r).
Proof.
  induction m as [|x m IH]; simpl; intros Hm Hr.
  - destruct r as [|y r]; simpl; [reflexivity|]. now rewrite Hr.
  - apply andb_prop in Hm. destruct Hm as [Hx Hm].
    rewrite Hx, (IH Hm Hr). reflexivity.
Qed.

(** A greedy repetition in front of a continuation that rejects every
    text starting in the class reads the longest run, and nothing else
    is tried with success. *)
Lemma repeat1_greedy (cls : cclass) k :
  (forall x t, in_class w cls x = true -> k (x :: t) = None) ->
  forall s acc,
    repeat1 w true cls k acc s =
    match span (in_class w cls) s with
    | ([], _) => None
    | (m, s') =>
        match k s' with
        | Some (gs, rest) => Some ((acc ++ m) :: gs, rest)
        | None => None
        end
    end.
Proof.
  intros Hk. induction s as [|x s IH]; intros acc; simpl; [reflexivity|].
  destruct (in_class w cls x) eqn:Hx; [|reflexivity].
  rewrite IH. destruct (span (in_class w cls) s) as [m r] eqn:Hs.
  destruct m as [|y m].
  - apply span_nil_l in Hs. subst r.
    destruct (k s) as [[gs rest]|]; reflexivity.
  - destruct (span_app _ _ _ _ Hs) as (Hsplit & Hm & _).
    simpl in Hm. apply andb_prop in Hm. destruct Hm as [Hy _].
    rewrite <- app_assoc. simpl.
    destruct (k r) as [[gs rest]|]; [reflexivity|].
    subst s. simpl. now rewrite (Hk y _ Hy).
Qed.

(** The lazy repetition of [.] in front of the closing bracket stops at
    the first closing bracket after its first character. *)
Lemma repeat1_lazy_step (s : text) : forall x acc,
  match (after_payload w) s with
  | Some (gs, rest) => Some ((acc ++ [x]) :: gs, rest)
  | None => repeat1 w false AnyChar (after_payload w) (acc ++ [x]) s
  end
  = match until_bracket s with
    | Some (p, r) => Some ([acc ++ x :: p], r)
    | None => None
    end.
Proof.
  induction s as [|y s IH]; intros x acc; [reflexivity|].
  unfold after_payload at 1. cbn [match_here until_bracket].
  destruct (N.eqb_spec y RBRACKET) as [->|Hy]; [reflexivity|].
  cbn [repeat1 in_class].
  destruct (N.eqb_spec y LF) as [->|Hl]; [reflexivity|].
  cbn [negb]. rewrite IH.
  destruct (until_bracket s) as [[p r]|]; [|reflexivity].
  now rewrite <- app_assoc.
Qed.

Lemma repeat1_lazy (s : text) :
  repeat1 w false AnyChar (after_payload w) [] s =
  match s with
  | [] => None
  | x :: s' =>
      if (x =? LF)%N then None
      else match until_bracket s' with
           | Some (p, r) => Some ([x :: p], r)
           | None => None
           end
  end.
Proof.
  destruct s as [|x s]; [reflexivity|].
  cbn [repeat1 in_class].
  destruct (N.eqb_spec x LF) as [->|Hl]; [reflexivity|].
  cbn [negb]. exact (repeat1_lazy_step s x []).
Qed.

Lemma until_bracket_inv (s p r : text) :
  until_bracket s = Some (p, r) ->
  s = p ++ RBRACKET :: r /\ mem RBRACKET p = false /\ mem LF p = false.
Proof.
  revert p r. induction s as [|x s IH]; simpl; intros p r H;
    [discriminate|].
  destruct (N.eqb_spec x RBRACKET) as [->|Hx].
  - inversion H; subst. auto.
  - destruct (N.eqb_spec x LF) as [->|Hl]; [discriminate|].
    destruct (until_bracket s) as [[p' r']|]; [|discriminate].
    inversion H; subst. destruct (IH _ _ eq_refl) as (-> & Hb & Hn).
    cbn [mem existsb app]. fold (mem RBRACKET p') (mem LF p').
    rewrite Hb, Hn.
    apply N.eqb_neq in Hx. apply N.eqb_neq in Hl. rewrite Hx, Hl. auto.
Qed.

Lemma until_bracket_app (p r : text) :
  mem RBRACKET p = false -> mem LF p = false ->
  until_bracket (p ++ RBRACKET :: r) = Some (p, r).
Proof.
  induction p as [|x p IH]; simpl; intros Hb Hn; [reflexivity|].
  apply orb_false_iff in Hb. destruct Hb as [Hx Hb].
  apply orb_false_iff in Hn. destruct Hn as [Hl Hn].
  rewrite Hx, Hl, (IH Hb Hn). reflexivity.
Qed.


Lemma space_not_word : in_class w Word SPACE = false.
Proof. simpl. now rewrite space_not_alnum. Qed.

Lemma after_name_rejects_words x t :
  in_class w Word x = true ->
  match_here w [Literal SPACE; Capture1 false AnyChar; Literal RBRACKET]
    (x :: t) = None.
Proof.
  intros Hx. cbn [match_here].
  destruct (N.eqb_spec x SPACE) as [->|]; [|reflexivity].
  rewrite space_not_word in Hx. discriminate.
Qed.

(** The matcher on a text that starts with the literal prefix, in closed
    form. *)
Lemma match_tool_call_prefixed (s : text) :
  match_tool_call w (TOKEN_PREFIX ++ s) =
  match span (in_class w Word) s with
  | ((_ :: _) as name, sp :: x :: s') =>
      if (sp =? SPACE)%N then
        if (x =? LF)%N then None
        else match until_bracket s' with
             | Some (p, r) => Some ((name, x :: p), r)
             | None => None
             end
      else None
  | _ => None
  end.
Proof.
  unfold match_tool_call, tool_call_pattern. fold TOKEN_PREFIX.
  rewrite match_here_literals. cbn [match_here].
  rewrite (repeat1_greedy Word _ after_name_rejects_words).
  destruct (span (in_class w Word) s) as [name r].
  destruct name as [|c name]; [reflexivity|].
  cbn [match_here app].
  destruct r as [|sp r]; [reflexivity|].
  fold (after_payload w). rewrite repeat1_lazy.
  destruct r as [|x r]; [destruct (sp =? SPACE)%N; reflexivity|].
  destruct (sp =? SPACE)%N; [|reflexivity].
  destruct (x =? LF)%N; [reflexivity|].
  destruct (until_bracket r) as [[p r']|]; reflexivity.
Qed.

Lemma match_tool_call_prefix (s : text) r :
  match_tool_call w s = Some r -> exists s', s = TOKEN_PREFIX ++ s'.
Proof.
  unfold match_tool_call, tool_call_pattern. fold TOKEN_PREFIX.
  destruct (match_here w _ s) as [res|] eqn:H; [|discriminate].
  intros _. destruct (match_here_literals_inv _ _ _ _ H) as (s' & -> & _).
  now exists s'.
Qed.

(** A text that does not open with a bracket matches nothing. *)
Lemma match_tool_call_no_bracket (x : char) (s : text) :
  x <> LBRACKET -> match_tool_call w (x :: s) = None.
Proof.
  intros Hx. destruct (match_tool_call w (x :: s)) as [r|] eqn:H;
    [|reflexivity].
  destruct (match_tool_call_prefix _ _ H) as (s' & Hs).
  change TOKEN_PREFIX with (LBRACKET :: str "TOOL_CALL: ") in Hs.
  inversion Hs. congruence.
Qed.

(** Soundness: what the matcher accepts is a directive token. *)
Lemma match_tool_call_sound (s name payload rest : text) :
  match_tool_call w s = Some ((name, payload), rest) ->
  s = directive_token name payload ++ rest
  /\ is_name w name = true /\ is_payload payload = true.
Proof.
  intros H. destruct (match_tool_call_prefix _ _ H) as (s1 & ->).
  rewrite match_tool_call_prefixed in H.
  destruct (span (in_class w Word) s1) as [n r] eqn:Hspan.
  destruct n as [|c n]; [discriminate|].
  destruct r as [|sp [|x r]]; try discriminate.
  destruct (N.eqb_spec sp SPACE) as [->|]; [|discriminate].
  destruct (N.eqb_spec x LF) as [|Hl]; [discriminate|].
  destruct (until_bracket r) as [[p r']|] eqn:Hu; [|discriminate].
  inversion H; subst.
  destruct (span_app _ _ _ _ Hspan) as (-> & Hn & _).
  destruct (until_bracket_inv _ _ _ Hu) as (-> & Hb & Hlf).
  unfold directive_token. repeat split.
  - rewrite <- !app_assoc. simpl. rewrite <- app_assoc. reflexivity.
  - exact Hn.
  - cbn [is_payload mem existsb]. fold (mem RBRACKET p) (mem LF p).
    rewrite Hb, Hlf. apply N.eqb_neq in Hl. rewrite Hl. reflexivity.
Qed.

(** Completeness: every directive token is accepted, with its name and
    its payload as the two groups. *)
Lemma match_tool_call_complete (name payload rest : text) :
  is_name w name = true -> is_payload payload = true ->
  match_tool_call w (directive_token name payload ++ rest)
  = Some ((name, payload), rest).
Proof.
  intros Hn Hp. unfold directive_token.
  rewrite <- !app_assoc. rewrite match_tool_call_prefixed.
  destruct name as [|c name]; [discriminate|].
  cbn [is_name] in Hn.
  rewrite (span_run (in_class w Word) (c :: name)
             ((SPACE :: payload ++ [RBRACKET]) ++ rest) Hn space_not_word).
  destruct payload as [|x p]; [discriminate|].
  cbn [is_payload mem existsb] in Hp.
  apply andb_prop in Hp. destruct Hp as [Hlf Hb].
  apply negb_true_iff in Hlf. apply negb_true_iff in Hb.
  apply orb_false_iff in Hlf. destruct Hlf as [Hx Hlf].
  cbn [app]. rewrite N.eqb_refl, Hx. rewrite <- app_assoc. cbn [app].
  rewrite (until_bracket_app p rest Hb Hlf). reflexivity.
Qed.

Lemma directive_token_length (name payload : text) :
  0 < length (directive_token name payload).
Proof. unfold directive_token. simpl. lia. Qed.

Lemma match_tool_call_shorter (s : text) g rest :
  match_tool_call w s = Some (g, rest) -> length rest < length s.
Proof.
  destruct g as [n p]. intros H.
  destruct (match_tool_call_sound _ _ _ _ H) as (-> & _ & _).
  rewrite length_app. pose proof (directive_token_length n p). lia.
Qed.
End RegexFacts.

(** ** Facts about the scan *)

Section ScanFacts.
Variable w : char -> bool.
Hypothesis space_not_alnum : w SPACE = false.

(** Any fuel above the length of the text gives the same scan. *)
Lemma finditer_from_fuel (fuel1 : nat) :
  forall fuel2 pos s,
    length s < fuel1 -> length s < fuel2 ->
    finditer_from w fuel1 pos s = finditer_from w fuel2 pos s.
Proof.
  induction fuel1 as [|f1 IH]; intros fuel2 pos s H1 H2; [lia|].
  destruct fuel2 as [|f2]; [lia|]. cbn [finditer_from].
  destruct (match_tool_call w s) as [[g rest]|] eqn:Hm.
  - pose proof (match_tool_call_shorter w space_not_alnum _ _ _ Hm).
    f_equal. apply IH; lia.
  - destruct s as [|x s]; [reflexivity|]. simpl in H1, H2.
    apply IH; lia.
Qed.

(** Positions only shift the offsets that are reported. *)
Lemma finditer_from_groups (fuel : nat) :
  forall pos pos' s,
    map snd (finditer_from w fuel pos s)
    = map snd (finditer_from w fuel pos' s).
Proof.
  induction fuel as [|f IH]; intros pos pos' s; [reflexivity|].
  cbn [finditer_from].
  destruct (match_tool_call w s) as [[g rest]|].
  - cbn [map snd]. f_equal. apply IH.
  - destruct s as [|x s]; [reflexivity|]. apply IH.
Qed.

Lemma findall_match (s : text) g rest :
  match_tool_call w s = Some (g, rest) ->
  findall w s = g :: findall w rest.
Proof.
  intros Hm. unfold findall. unfold finditer at 1. cbn [finditer_from].
  rewrite Hm. cbn [map snd]. f_equal. unfold finditer.
  pose proof (match_tool_call_shorter w space_not_alnum _ _ _ Hm).
  rewrite (finditer_from_fuel (length s) (S (length rest))) by lia.
  apply finditer_from_groups.
Qed.

Lemma findall_skip (x : char) (s : text) :
  match_tool_call w (x :: s) = None ->
  findall w (x :: s) = findall w s.
Proof.
  intros Hm. unfold findall. unfold finditer at 1. cbn [finditer_from].
  rewrite Hm. cbn [length]. unfold finditer.
  apply finditer_from_groups.
Qed.

(** The scan leaves a stretch without an opening bracket behind with no
    match. *)
Lemma findall_gap (gap rest : text) :
  mem LBRACKET gap = false ->
  findall w (gap ++ rest) = findall w rest.
Proof.
  induction gap as [|x gap IH]; intros Hg; [reflexivity|].
  cbn [mem existsb] in Hg. apply orb_false_iff in Hg.
  destruct Hg as [Hx Hg]. apply N.eqb_neq in Hx.
  cbn [app]. rewrite findall_skip.
  - now apply IH.
  - now apply match_tool_call_no_bracket.
Qed.

Lemma findall_no_bracket (s : text) :
  mem LBRACKET s = false -> findall w s = [].
Proof.
  intros H. rewrite <- (app_nil_r s). now rewrite findall_gap.
Qed.

Lemma findall_token (name payload rest : text) :
  is_name w name = true -> is_payload payload = true ->
  findall w (directive_token name payload ++ rest)
  = (name, payload) :: findall w rest.
Proof.
  intros Hn Hp. apply findall_match.
  now apply match_tool_call_complete.
Qed.

(** Every reported offset is one where the matcher succeeds with the
    reported groups. *)
Lemma finditer_from_sound (fuel : nat) :
  forall pos0 s pos g,
    In (pos, g) (finditer_from w fuel pos0 s) ->
    pos0 <= pos
    /\ exists rest,
         match_tool_call w (skipn (pos - pos0) s) = Some (g, rest).
Proof.
  induction fuel as [|f IH]; intros pos0 s pos g Hin; [contradiction|].
  cbn [finditer_from] in Hin.
  destruct (match_tool_call w s) as [[g0 rest]|] eqn:Hm.
  - destruct Hin as [Heq|Hin].
    + inversion Heq; subst. split; [lia|].
      rewrite Nat.sub_diag. exists rest. exact Hm.
    + destruct (IH _ _ _ _ Hin) as (Hle & rest' & Hm').
      pose proof (match_tool_call_shorter w space_not_alnum _ _ _ Hm) as Hlt.
      split; [lia|]. exists rest'. rewrite <- Hm'. f_equal.
      destruct g0 as [n p].
      destruct (match_tool_call_sound w space_not_alnum _ _ _ _ Hm)
        as (Hs & _ & _).
      rewrite Hs at 1. rewrite Hs in Hle, Hlt |- *.
      rewrite length_app in *.
      replace (pos - pos0)
        with (length (directive_token n p)
              + (pos - (pos0 + (length (directive_token n p)
                                + length rest - length rest))))
        by lia.
      rewrite skipn_app, skipn_all2 by lia. cbn [app]. f_equal. lia.
  - destruct s as [|x s]; [contradiction|].
    destruct (IH _ _ _ _ Hin) as (Hle & rest' & Hm').
    split; [lia|]. exists rest'. rewrite <- Hm'.
    replace (pos - pos0) with (S (pos - S pos0)) by lia. reflexivity.
Qed.



Lemma finditer_sound (s : text) pos g :
  In (pos, g) (finditer w s) ->
  exists rest, match_tool_call w (skipn pos s) = Some (g, rest).
Proof.
  intros Hin. destruct (finditer_from_sound _ _ _ _ _ Hin) as (_ & H).
  now rewrite Nat.sub_0_r in H.
Qed.
End ScanFacts.

(* ------------------------------------------------------------------ *)
(** ** Facts about the runs *)

Lemma interactions_app (a b : list event) :
  interactions (a ++ b) = interactions a ++ interactions b.
Proof. apply filter_app. Qed.

Lemma skipn_length_app {A} (a b : list A) : skipn (length a) (a ++ b) = b.
Proof.
  rewrite skipn_app, skipn_all, Nat.sub_diag. reflexivity.
Qed.

Section RunFacts.
Variable rt : Runtime.
Variable W : Type.
Variable caps : Capabilities W.

Lemma runs_to_outcome {A} (m : M W A) st r w' evs :
  runs_to m st r w' evs -> outcome m st = r /\ events m st = evs.
Proof.
  unfold runs_to, outcome, events. intros ->. cbn [fst snd log].
  split; [reflexivity | apply skipn_length_app].
Qed.

Lemma runs_to_bind {A B} (m : M W A) (f : A -> M W B) st a w1 evs1 r w2
    evs2 :
  runs_to m st (inr a) w1 evs1 ->
  runs_to (f a) {| world := w1; log := log st ++ evs1 |} r w2 evs2 ->
  runs_to (bind m f) st r w2 (evs1 ++ evs2).
Proof.
  unfold runs_to, bind. intros -> ->. cbn [log].
  now rewrite app_assoc.
Qed.

Lemma runs_to_bind_fail {A B} (m : M W A) (f : A -> M W B) st e w1 evs1 :
  runs_to m st (inl e) w1 evs1 ->
  runs_to (bind m f) st (inl e) w1 evs1.
Proof. unfold runs_to, bind. now intros ->. Qed.

Lemma runs_to_bind_ret {A B} (m : M W A) (g : A -> B) st a w1 evs1 :
  runs_to m st (inr a) w1 evs1 ->
  runs_to (bind m (fun x => ret (g x))) st (inr (g a)) w1 evs1.
Proof. unfold runs_to, bind, ret. now intros ->. Qed.

Lemma runs_to_events {A} (m : M W A) st r w' evs evs' :
  runs_to m st r w' evs -> evs = evs' -> runs_to m st r w' evs'.
Proof. now intros H <-. Qed.

Lemma runs_to_print line st :
  runs_to (print (W:=W) line) st (inr tt) (world st) [EvPrint line].
Proof. reflexivity. Qed.

Lemma runs_to_ret {A} (a : A) st :
  runs_to (ret (W:=W) a) st (inr a) (world st) [].
Proof. unfold runs_to, ret. rewrite app_nil_r. now destruct st. Qed.

Lemma runs_to_perform {A} (cap : W -> result A * W) ev st r w' :
  cap (world st) = (r, w') ->
  runs_to (perform cap ev) st r w' [ev r].
Proof. unfold runs_to, perform. now intros ->. Qed.

Lemma followup_chat_request (h : list message) :
  chat_request rt h None default_max_tokens = inr (followup_request h).
Proof. reflexivity. Qed.

Lemma history_grows (h : list message) (n : text) (c : CallToolResult) :
  (h ++ [{| msg_role := Assistant;
            msg_content := str "[Tool " ++ n ++ str " executed]" |}])
  ++ [{| msg_role := User; msg_content := result_content c |}]
  = h ++ executed_entries n c.
Proof. now rewrite <- app_assoc. Qed.

Ltac run_dispatch Hc :=
  unfold runs_to, dispatch, bind, print, try_except, lift, call_tool,
    openai_chat, acreate, perform, ret, decoded_args in *;
  destruct (json_loads rt _); cbn [world log];
  rewrite Hc; cbn [world log].

Ltac close_run :=
  eexists; split;
  [ rewrite <- ?app_assoc; reflexivity | reflexivity ].

(** One round of the loop, by the outcomes of its two capability
    calls. *)
Lemma dispatch_tool_fails h segs n raw (st : state W) e w1 :
  session_call_tool caps n (decoded_args rt raw) (world st) = (inl e, w1) ->
  exists evs,
    runs_to (dispatch rt caps (h, segs) (n, raw)) st (inl e) w1 evs
    /\ interactions evs = [EvCallTool n (decoded_args rt raw) (inl e)].
Proof. intros Hc. run_dispatch Hc; close_run. Qed.

Lemma dispatch_followup (h : list message) segs n raw (st : state W) c w1
    rf w2 :
  session_call_tool caps n (decoded_args rt raw) (world st) = (inr c, w1) ->
  chat_completion caps (followup_request (h ++ executed_entries n c)) w1
  = (rf, w2) ->
  exists evs,
    runs_to (dispatch rt caps (h, segs) (n, raw)) st
      (match rf with
       | inl e => inl e
       | inr t => inr (h ++ executed_entries n c, segs ++ [t])
       end) w2 evs
    /\ interactions evs
       = [EvCallTool n (decoded_args rt raw) (inr c);
          EvComplete (followup_request (h ++ executed_entries n c)) rf].
Proof.
  intros Hc Hf.
  run_dispatch Hc; rewrite history_grows, followup_chat_request;
    unfold bind, lift; cbn [world log]; rewrite Hf; destruct rf;
    cbn [world log]; close_run.
Qed.

(** Every run of the loop follows [loop_trace]. *)
Lemma for_each_sound (ds : list (text * text)) :
  forall h segs (st : state W),
  exists r w' evs,
    runs_to (for_each (dispatch rt caps) ds (h, segs)) st r w' evs
    /\ loop_trace rt ds h segs (interactions evs) r.
Proof.
  induction ds as [|[n raw] ds IH]; intros h segs st.
  - exists (inr (h, segs)), (world st), []. split.
    + apply runs_to_ret.
    + constructor.
  - cbn [for_each].
    destruct (session_call_tool caps n (decoded_args rt raw) (world st))
      as [[e|c] w1] eqn:Hc.
    + destruct (dispatch_tool_fails h segs _ _ _ _ _ Hc)
        as (evs & Hrun & Hevs).
      exists (inl e), w1, evs. split.
      * now apply runs_to_bind_fail.
      * rewrite Hevs. constructor.
    + destruct (chat_completion caps
                  (followup_request (h ++ executed_entries n c)) w1)
        as [[e|t] w2] eqn:Hf.
      * destruct (dispatch_followup h segs _ _ _ _ _ _ _ Hc Hf)
          as (evs & Hrun & Hevs).
        exists (inl e), w2, evs. split.
        -- now apply runs_to_bind_fail.
        -- rewrite Hevs. constructor.
      * destruct (dispatch_followup h segs _ _ _ _ _ _ _ Hc Hf)
          as (evs & Hrun & Hevs).
        destruct (IH (h ++ executed_entries n c) (segs ++ [t])
                    {| world := w2; log := log st ++ evs |})
          as (r & w' & evs' & Hrun' & Htrace).
        exists r, w', (evs ++ evs'). split.
        -- eapply runs_to_bind; eassumption.
        -- rewrite interactions_app, Hevs. cbn [app].
           now constructor.
Qed.

(** With capabilities that do not fail the loop runs all its rounds. *)
Lemma for_each_reliable (ds : list (text * text)) :
  tools_reliable caps -> model_reliable caps ->
  forall h segs (st : state W),
  exists rounds h' w' evs,
    runs_to (for_each (dispatch rt caps) ds (h, segs)) st
      (inr (h', segs ++ map snd rounds)) w' evs
    /\ interactions evs = expected_rounds rt h ds rounds
    /\ length rounds = length ds.
Proof.
  intros Htools Hmodel.
  induction ds as [|[n raw] ds IH]; intros h segs st.
  - exists [], h, (world st), []. cbn [map]. rewrite app_nil_r.
    split; [apply runs_to_ret | split; reflexivity].
  - cbn [for_each].
    destruct (Htools n (decoded_args rt raw) (world st))
      as (c & w1 & Hc).
    destruct (Hmodel (followup_request (h ++ executed_entries n c)) w1)
      as (t & w2 & Hf).
    destruct (dispatch_followup h segs _ _ _ _ _ _ _ Hc Hf)
      as (evs & Hrun & Hevs).
    destruct (IH (h ++ executed_entries n c) (segs ++ [t])
                {| world := w2; log := log st ++ evs |})
      as (rounds & h' & w' & evs' & Hrun' & Hevs' & Hlen).
    exists ((c, t) :: rounds), h', w', (evs ++ evs').
    cbn [map snd]. split; [|split].
    + eapply runs_to_bind; [eassumption|].
      rewrite <- app_assoc in Hrun'. exact Hrun'.
    + rewrite interactions_app, Hevs, Hevs'. reflexivity.
    + cbn [length]. now rewrite Hlen.
Qed.

Lemma runs_to_openai_chat_unbuilt msgs tools max (st : state W) e :
  chat_request rt msgs tools max = inl e ->
  runs_to (openai_chat rt caps msgs tools max) st (inl e) (world st) [].
Proof.
  intros H. unfold runs_to, openai_chat, bind, lift. rewrite H.
  rewrite app_nil_r. now destruct st.
Qed.

Lemma runs_to_openai_chat msgs tools max (st : state W) req r w' :
  chat_request rt msgs tools max = inr req ->
  chat_completion caps req (world st) = (r, w') ->
  runs_to (openai_chat rt caps msgs tools max) st r w' [EvComplete req r].
Proof.
  intros H Hc. unfold runs_to, openai_chat, bind, lift, acreate, perform.
  rewrite H, Hc. reflexivity.
Qed.

Ltac after_print :=
  eapply runs_to_bind; [apply runs_to_print | cbn [world log]].

Lemma runs_to_no_match_warning (ds : list (text * text)) (st : state W) :
  exists evs,
    runs_to
      (match ds with
       | [] => print (warning_sign
                      ++ str " No tool call detected in assistant response.")
       | _ => ret tt
       end) st (inr tt) (world st) evs
    /\ interactions evs = [].
Proof.
  destruct ds.
  - eexists. split; [apply runs_to_print | reflexivity].
  - exists []. split; [apply runs_to_ret | reflexivity].
Qed.

(** Once the model has answered, [process_query] is its loop over the
    directives of the answer. *)
Lemma process_query_answered (query : text) (st : state W) tools w1 req
    initial w2 :
  session_list_tools caps (world st) = (inr tools, w1) ->
  initial_request rt query tools = inr req ->
  chat_completion caps req w1 = (inr initial, w2) ->
  exists evs0,
    interactions evs0
    = [EvListTools (inr tools); EvComplete req (inr initial)]
    /\ forall r w' evs,
         runs_to
           (for_each (dispatch rt caps) (findall (isalnum rt) initial)
              ([user_message query], [initial]))
           {| world := w2; log := log st ++ evs0 |} r w' evs ->
         runs_to (process_query rt caps query) st (transcript_of r) w'
           (evs0 ++ evs).
Proof.
  intros Hl Hreq Hc.
  set (evs0 :=
         [EvPrint (LF :: str "Processing query: " ++ query);
          EvListTools (inr tools);
          EvPrint (str "Available tools: "
                   ++ py_str rt
                        (PList (map (fun tool => PStr (e_name tool))
                                  (map tool_as_entry tools))));
          EvPrint (LF :: str "Making initial OpenAI API call...");
          EvComplete req (inr initial);
          EvPrint (LF :: str "Assistant response:" ++ [LF] ++ initial
                   ++ [LF])]).
  destruct (runs_to_no_match_warning (findall (isalnum rt) initial)
              {| world := w2; log := log st ++ evs0 |})
    as (evs1 & Hrun1 & Hevs1).
  cbn [world log] in Hrun1.
  exists (evs0 ++ evs1). split.
  - rewrite interactions_app, Hevs1. reflexivity.
  - intros r w' evs Hrun2. subst evs0. unfold process_query.
    eapply runs_to_events.
    + after_print. eapply runs_to_bind;
        [apply runs_to_perform; exact Hl | cbn [world log]].
      after_print. after_print.
      eapply runs_to_bind;
        [eapply runs_to_openai_chat; [exact Hreq | exact Hc]
        | cbn [world log]].
      after_print. rewrite <- !app_assoc. cbn [app].
      eapply runs_to_bind; [exact Hrun1 | cbn [world log]].
      rewrite <- ?app_assoc in Hrun2. cbn [app] in Hrun2.
      rewrite <- ?app_assoc. cbn [app].
      destruct r as [e|acc].
      * apply runs_to_bind_fail. exact Hrun2.
      * apply (runs_to_bind_ret _ (fun acc => join [LF] (snd acc))).
        exact Hrun2.
    + rewrite <- !app_assoc. reflexivity.
Qed.

(** Every run of [process_query] follows [query_trace]. *)
Lemma process_query_sound (query : text) (st : state W) :
  exists r w' evs,
    runs_to (process_query rt caps query) st r w' evs
    /\ query_trace rt query (interactions evs) r.
Proof.
  destruct (session_list_tools caps (world st)) as [[e|tools] w1] eqn:Hl.
  { exists (inl e), w1. eexists. split.
    - unfold process_query. after_print. apply runs_to_bind_fail.
      apply runs_to_perform. exact Hl.
    - cbn. constructor. }
  destruct (initial_request rt query tools) as [e|req] eqn:Hreq.
  { exists (inl e), w1. eexists. split.
    - unfold process_query. after_print. eapply runs_to_bind;
        [apply runs_to_perform; exact Hl | cbn [world log]].
      after_print. after_print. apply runs_to_bind_fail.
      apply runs_to_openai_chat_unbuilt. exact Hreq.
    - cbn. now constructor. }
  destruct (chat_completion caps req w1) as [[e|initial] w2] eqn:Hc.
  { exists (inl e), w2. eexists. split.
    - unfold process_query. after_print. eapply runs_to_bind;
        [apply runs_to_perform; exact Hl | cbn [world log]].
      after_print. after_print. apply runs_to_bind_fail.
      eapply runs_to_openai_chat; [exact Hreq | exact Hc].
    - cbn. now constructor. }
  destruct (process_query_answered query st _ _ _ _ _ Hl Hreq Hc)
    as (evs0 & Hevs0 & Hrun).
  destruct (for_each_sound (findall (isalnum rt) initial)
              [user_message query] [initial]
              {| world := w2; log := log st ++ evs0 |})
    as (r & w' & evs & Hloop & Htrace).
  exists (transcript_of r), w', (evs0 ++ evs). split.
  - now apply Hrun.
  - rewrite interactions_app, Hevs0. cbn [app]. now constructor.
Qed.

(** With capabilities that do not fail, a query the model answers runs
    through all its rounds. *)
Lemma process_query_reliable (query : text) (st : state W) tools initial :
  tools_reliable caps -> model_reliable caps ->
  answers_first rt caps query st tools initial ->
  exists req rounds,
    length rounds = length (findall (isalnum rt) initial)
    /\ outcome (process_query rt caps query) st
       = inr (join [LF] (initial :: map snd rounds))
    /\ interactions (events (process_query rt caps query) st)
       = EvListTools (inr tools) :: EvComplete req (inr initial)
         :: expected_rounds rt [user_message query]
              (findall (isalnum rt) initial) rounds.
Proof.
  intros Htools Hmodel (w1 & req & w2 & Hl & Hreq & Hc).
  destruct (process_query_answered query st _ _ _ _ _ Hl Hreq Hc)
    as (evs0 & Hevs0 & Hrun).
  destruct (for_each_reliable (findall (isalnum rt) initial) Htools Hmodel
              [user_message query] [initial]
              {| world := w2; log := log st ++ evs0 |})
    as (rounds & h' & w' & evs & Hloop & Hevs & Hlen).
  apply Hrun in Hloop. apply runs_to_outcome in Hloop.
  destruct Hloop as [Hout Hev].
  exists req, rounds. split; [exact Hlen|]. split.
  - rewrite Hout. reflexivity.
  - rewrite Hev, interactions_app, Hevs0, Hevs. reflexivity.
Qed.
End RunFacts.

(** ** Facts about the traces *)

Section TraceFacts.
Variable rt : Runtime.

Lemma calls_expected_rounds (ds : list (text * text)) :
  forall h rounds,
    length rounds = length ds ->
    calls (expected_rounds rt h ds rounds) = map (dispatched rt) ds.
Proof.
  induction ds as [|[n raw] ds IH]; intros h rounds Hlen;
    destruct rounds as [|[c t] rounds]; try discriminate;
    [reflexivity|].
  cbn [expected_rounds calls flat_map app map]. f_equal.
  apply IH. now inversion Hlen.
Qed.

Lemma expected_rounds_call (ds : list (text * text)) :
  forall h rounds i n raw,
    length rounds = length ds ->
    nth_error ds i = Some (n, raw) ->
    exists c,
      In (EvCallTool n (decoded_args rt raw) (inr c))
        (expected_rounds rt h ds rounds).
Proof.
  induction ds as [|[n0 raw0] ds IH]; intros h rounds i n raw Hlen Hi;
    destruct rounds as [|[c t] rounds]; try discriminate;
    [destruct i; discriminate|].
  cbn [expected_rounds]. destruct i as [|i].
  - inversion Hi; subst. exists c. now left.
  - inversion Hlen as [Hlen'].
    destruct (IH (h ++ executed_entries n0 c) rounds i n raw Hlen' Hi)
      as (c' & Hin).
    exists c'. right. right. exact Hin.
Qed.

(** A tool call that fails is the last thing the loop does, and its
    exception is how the loop ends. *)
Lemma loop_trace_failed_call ds h segs evs r n a e :
  loop_trace rt ds h segs evs r ->
  In (EvCallTool n a (inl e)) evs ->
  r = inl e /\ exists before, evs = before ++ [EvCallTool n a (inl e)].
Proof.
  induction 1 as [h segs | n0 raw ds h segs e0 | n0 raw ds h segs c e0
                  | n0 raw ds h segs c t evs r Hloop IH]; intros Hin.
  - contradiction.
  - destruct Hin as [Heq|[]]. inversion Heq; subst.
    split; [reflexivity | now exists []].
  - destruct Hin as [Heq|[Heq|[]]]; discriminate.
  - destruct Hin as [Heq|[Heq|Hin]]; try discriminate.
    destruct (IH Hin) as (-> & before & ->). split; [reflexivity|].
    eexists (_ :: _ :: before). reflexivity.
Qed.

Lemma query_trace_failed_call query evs r n a e :
  query_trace rt query evs r ->
  In (EvCallTool n a (inl e)) evs ->
  r = inl e /\ exists before, evs = before ++ [EvCallTool n a (inl e)].
Proof.
  intros [e0 | tools e0 Hreq | tools req e0 Hreq
          | tools req initial evs' r' Hreq Hloop] Hin.
  - destruct Hin as [Heq|[]]; discriminate.
  - destruct Hin as [Heq|[]]; discriminate.
  - destruct Hin as [Heq|[Heq|[]]]; discriminate.
  - destruct Hin as [Heq|[Heq|Hin]]; try discriminate.
    destruct (loop_trace_failed_call _ _ _ _ _ _ _ _ Hloop Hin)
      as (-> & before & ->).
    split; [reflexivity|]. eexists (_ :: _ :: before). reflexivity.
Qed.


(** Every request of the loop is a follow-up request. *)
Lemma loop_trace_requests ds h segs evs r :
  loop_trace rt ds h segs evs r ->
  Forall (fun req => exists h', req = followup_request h') (requests evs).
Proof.
  induction 1 as [h segs | n0 raw ds h segs e0 | n0 raw ds h segs c e0
                  | n0 raw ds h segs c t evs r Hloop IH].
  - constructor.
  - constructor.
  - repeat constructor. eauto.
  - cbn [requests flat_map app]. constructor; [eauto | exact IH].
Qed.

Lemma query_trace_requests query evs r :
  query_trace rt query evs r ->
  Forall (fun req => exists h', req = followup_request h')
    (tl (requests evs)).
Proof.
  intros [e0 | tools e0 Hreq | tools req e0 Hreq
          | tools req initial evs' r' Hreq Hloop].
  - constructor.
  - constructor.
  - constructor.
  - cbn [requests flat_map app tl].
    exact (loop_trace_requests _ _ _ _ _ Hloop).
Qed.
End TraceFacts.

(* ------------------------------------------------------------------ *)
(** ** The parser *)

Lemma ascii_space_not_alnum (rt : Runtime) :
  ascii_faithful rt -> isalnum rt SPACE = false.
Proof. intros H. now rewrite H. Qed.

Lemma is_name_ascii (rt : Runtime) (name : text) :
  ascii_faithful rt ->
  forallb (fun c => (c <? 128)%N) name = true ->
  is_name (isalnum rt) name = is_name ascii_alnum name.
Proof.
  intros H Hs. destruct name as [|c name]; [reflexivity|].
  unfold is_name. revert Hs. generalize (c :: name). clear c name.
  induction l as [|x l IH]; intros Hs; [reflexivity|].
  cbn [forallb] in *. apply andb_prop in Hs. destruct Hs as [Hx Hl].
  apply N.ltb_lt in Hx. cbn [in_class]. rewrite (H x Hx), (IH Hl).
  reflexivity.
Qed.

Lemma mem_app (c : char) (a b : text) :
  mem c (a ++ b) = mem c a || mem c b.
Proof. apply existsb_app. Qed.


Lemma token_free_findall (w : char -> bool) (s : text) :
  w SPACE = false -> token_free w s -> findall w s = [].
Proof.
  intros Hsp Hfree.
  assert (Hsuf : forall before suf, s = before ++ suf ->
                                    match_tool_call w suf = None).
  { intros before suf ->.
    destruct (match_tool_call w suf) as [[[n p] rest]|] eqn:Hm;
      [|reflexivity].
    destruct (match_tool_call_sound w Hsp _ _ _ _ Hm) as (-> & Hn & Hp).
    exfalso. exact (Hfree before n p rest eq_refl Hn Hp). }
  clear Hfree. induction s as [|x s IH]; [reflexivity|].
  rewrite (findall_skip w _ _ (Hsuf [] _ eq_refl)).
  apply IH. intros before suf ->. apply (Hsuf (x :: before)). reflexivity.
Qed.

Lemma no_bracket_token_free (w : char -> bool) (s : text) :
  mem LBRACKET s = false -> token_free w s.
Proof.
  intros Hs before n p rest -> _ _.
  rewrite mem_app in Hs. apply orb_false_iff in Hs. destruct Hs as [_ Hs].
  unfold directive_token in Hs. rewrite mem_app in Hs.
  apply orb_false_iff in Hs. destruct Hs as [Hs _].
  rewrite mem_app in Hs. discriminate.
Qed.

(** C5.  The parser recognizes exactly the tokens
    [[TOOL_CALL: <name> <payload>]] in which the name is one or more word
    characters and the payload is one or more characters of one line up
    to the first closing bracket that follows its first character; the
    groups of a match are the name and the payload.  On the example text
    of the specification the scan yields the single directive with the
    name [get_weather] and the payload that decodes to the mapping of
    [city] to [Paris]. *)
Theorem tool_call_token_shape (rt : Runtime) :
  ascii_faithful rt ->
  (forall s name payload rest,
     match_tool_call (isalnum rt) s = Some ((name, payload), rest)
     <-> s = directive_token name payload ++ rest
         /\ is_name (isalnum rt) name = true
         /\ is_payload payload = true)
  /\ findall (isalnum rt) example_text
     = [(str "get_weather", example_payload)]
  /\ json_decode example_payload = inr city_paris
  /\ (json_loads rt example_payload = inr city_paris ->
      map (dispatched rt) (findall (isalnum rt) example_text)
      = [(str "get_weather", city_paris)]).
Proof.
  intros Hascii. pose proof (ascii_space_not_alnum rt Hascii) as Hsp.
  assert (Hfound : findall (isalnum rt) example_text
                   = [(str "get_weather", example_payload)]);
    [|split; [|split; [exact Hfound|split]]].
  - change example_text
      with (str "Sure! "
            ++ directive_token (str "get_weather") example_payload ++ []).
    rewrite findall_gap by reflexivity.
    rewrite (findall_token _ Hsp).
    + reflexivity.
    + rewrite (is_name_ascii rt _ Hascii) by reflexivity. reflexivity.
    + reflexivity.
  - intros s name payload rest. split.
    + apply match_tool_call_sound. exact Hsp.
    + intros (-> & Hn & Hp). now apply match_tool_call_complete.
  - reflexivity.
  - intros Hjson. rewrite Hfound. unfold dispatched, decoded_args.
    cbn [map fst snd]. now rewrite Hjson.
Qed.

Lemma tool_call_token_shape_witness :
  findall (isalnum ref_runtime) example_text
  = [(str "get_weather", example_payload)].
Proof.
  exact (proj1 (proj2 (tool_call_token_shape ref_runtime
                         (fun c _ => eq_refl)))).
Defined.




(* ------------------------------------------------------------------ *)
(** ** The conversation loop *)

Lemma calls_interactions (evs : list event) :
  calls (interactions evs) = calls evs.
Proof.
  induction evs as [|ev evs IH]; [reflexivity|].
  destruct ev; cbn [interactions filter is_interaction calls flat_map app];
    fold (interactions evs); fold (calls evs);
    fold (calls (interactions evs)); now rewrite IH.
Qed.



Lemma requests_interactions (evs : list event) :
  requests (interactions evs) = requests evs.
Proof.
  induction evs as [|ev evs IH]; [reflexivity|].
  destruct ev; cbn [interactions filter is_interaction requests flat_map];
    fold (interactions evs); fold (requests evs);
    fold (requests (interactions evs)); now rewrite IH.
Qed.

Lemma in_interactions (ev : event) (evs : list event) :
  In ev (interactions evs) <-> In ev evs /\ is_interaction ev = true.
Proof. apply filter_In. Qed.

Section LoopFacts.
Variable rt : Runtime.
Variable W : Type.
Variable caps : Capabilities W.
Hypothesis tools_ok : tools_reliable caps.
Hypothesis model_ok : model_reliable caps.

(** With capabilities that do not fail, every directive of the answer
    is dispatched, in the order of the scan, with its decoded
    arguments. *)
Lemma reliable_dispatch (query : text) (st : state W) tools initial :
  answers_first rt caps query st tools initial ->
  (exists transcript,
     outcome (process_query rt caps query) st = inr transcript)
  /\ calls (events (process_query rt caps query) st)
     = map (dispatched rt) (findall (isalnum rt) initial)
  /\ forall i n raw,
       nth_error (findall (isalnum rt) initial) i = Some (n, raw) ->
       exists c,
         In (EvCallTool n (decoded_args rt raw) (inr c))
           (events (process_query rt caps query) st).
Proof.
  intros Hfirst.
  destruct (process_query_reliable rt W caps query st tools initial
              tools_ok model_ok Hfirst)
    as (req & rounds & Hlen & Hout & Hevs).
  split; [eauto|]. split.
  - rewrite <- calls_interactions, Hevs.
    cbn [calls flat_map app]. now apply calls_expected_rounds.
  - intros i n raw Hi.
    destruct (expected_rounds_call rt _ [user_message query] rounds
                i n raw Hlen Hi) as (c & Hin).
    exists c. apply (in_interactions _ _). rewrite Hevs.
    right. right. exact Hin.
Qed.
End LoopFacts.

(** What joining on a line feed gives, written out: the first part,
    then every other part behind one line feed. *)
Lemma join_lines (first : text) (others : list text) :
  join [LF] (first :: others)
  = first ++ flat_map (fun t => LF :: t) others.
Proof.
  revert first. induction others as [|t others IH]; intros first.
  - cbn [join flat_map]. now rewrite app_nil_r.
  - change (join [LF] (first :: t :: others))
      with (first ++ [LF] ++ join [LF] (t :: others)).
    rewrite IH. reflexivity.
Qed.


Lemma scripted_tools_reliable (sc : script) :
  tools_reliable (scripted_reliable sc).
Proof. intros name args w. eexists. eexists. reflexivity. Qed.

Lemma scripted_model_reliable (sc : script) :
  model_reliable (scripted_reliable sc).
Proof. intros req w. eexists. eexists. reflexivity. Qed.

Lemma two_directives_answered :
  answers_first ref_runtime (scripted_reliable two_directives_script)
    (str "weather in Paris?") start [weather_tool] two_directives.
Proof. eexists. eexists. eexists. repeat split; reflexivity. Qed.


(** C4.  When no directive token occurs in the model's first answer,
    [process_query] returns exactly that answer, a transcript of one
    segment; the run lists the tools, calls the model once, and calls no
    tool. *)
Theorem no_directive_returns_initial_response (rt : Runtime) (W : Type)
    (caps : Capabilities W) :
  ascii_faithful rt ->
  forall query (st : state W) tools initial,
    answers_first rt caps query st tools initial ->
    token_free (isalnum rt) initial ->
    outcome (process_query rt caps query) st = inr initial
    /\ exists req,
         interactions (events (process_query rt caps query) st)
         = [EvListTools (inr tools); EvComplete req (inr initial)].
Proof.
  intros Hascii query st tools initial (w1 & req & w2 & Hl & Hreq & Hc)
    Hfree.
  destruct (process_query_answered rt W caps query st _ _ _ _ _ Hl Hreq Hc)
    as (evs0 & Hevs0 & Hrun).
  pose proof (token_free_findall _ _ (ascii_space_not_alnum rt Hascii) Hfree)
    as Hnone.
  rewrite Hnone in Hrun.
  specialize (Hrun _ _ _ (runs_to_ret W _ _)).
  apply runs_to_outcome in Hrun. destruct Hrun as [Hout Hev].
  split; [exact Hout|]. exists req.
  now rewrite Hev, app_nil_r.
Qed.

Lemma plain_answer_first :
  answers_first ref_runtime (scripted plain_answer_script) (str "hello")
    start [weather_tool] (str "Hello! How can I help?").
Proof. eexists. eexists. eexists. repeat split; reflexivity. Qed.

Lemma no_directive_returns_initial_response_witness :
  outcome (process_query ref_runtime (scripted plain_answer_script)
             (str "hello")) start
  = inr (str "Hello! How can I help?").
Proof.
  exact (proj1 (no_directive_returns_initial_response ref_runtime
                  scripted_world (scripted plain_answer_script)
                  (fun c _ => eq_refl) (str "hello") start [weather_tool]
                  (str "Hello! How can I help?") plain_answer_first
                  (no_bracket_token_free ascii_alnum
                     (str "Hello! How can I help?") eq_refl))).
Defined.

(** C2.  A directive whose payload [json.loads] rejects is dispatched
    with the empty mapping as its arguments, and the query goes on: with
    capabilities that do not fail, [process_query] returns a transcript,
    the session is called once for every directive of the answer in the
    order of the scan, the call for the rejected payload carries the
    empty mapping, and every directive whose payload decodes is called
    with the decoded value. *)
Theorem malformed_arguments_become_empty_mapping (rt : Runtime) (W : Type)
    (caps : Capabilities W) :
  tools_reliable caps -> model_reliable caps ->
  forall query (st : state W) tools initial i name raw err,
    answers_first rt caps query st tools initial ->
    nth_error (findall (isalnum rt) initial) i = Some (name, raw) ->
    json_loads rt raw = inl err ->
    (exists transcript,
       outcome (process_query rt caps query) st = inr transcript)
    /\ nth_error (calls (events (process_query rt caps query) st)) i
       = Some (name, PDict [])
    /\ map fst (calls (events (process_query rt caps query) st))
       = map fst (findall (isalnum rt) initial)
    /\ forall j name' raw' v,
         nth_error (findall (isalnum rt) initial) j = Some (name', raw') ->
         json_loads rt raw' = inr v ->
         nth_error (calls (events (process_query rt caps query) st)) j
         = Some (name', v).
Proof.
  intros Htools Hmodel query st tools initial i name raw err Hfirst Hi Herr.
  destruct (reliable_dispatch rt W caps Htools Hmodel query st tools initial
              Hfirst) as (Hout & Hcalls & _).
  rewrite Hcalls. split; [exact Hout|]. split; [|split].
  - rewrite nth_error_map, Hi. unfold dispatched, decoded_args.
    cbn [option_map fst snd]. now rewrite Herr.
  - rewrite map_map. reflexivity.
  - intros j name' raw' v Hj Hv.
    rewrite nth_error_map, Hj. unfold dispatched, decoded_args.
    cbn [option_map fst snd]. now rewrite Hv.
Qed.

Lemma malformed_arguments_become_empty_mapping_witness :
  nth_error
    (calls (events (process_query ref_runtime
                      (scripted_reliable two_directives_script)
                      (str "weather in Paris?")) start)) 0
  = Some (str "lookup", PDict []).
Proof.
  exact (proj1 (proj2 (malformed_arguments_become_empty_mapping ref_runtime
                         scripted_world
                         (scripted_reliable two_directives_script)
                         (scripted_tools_reliable two_directives_script)
                         (scripted_model_reliable two_directives_script)
                         (str "weather in Paris?") start [weather_tool]
                         two_directives 0 (str "lookup")
                         (str "{city: Paris}")
                         (Raised (str "Expecting value"))
                         two_directives_answered eq_refl eq_refl))).
Defined.

(** C6.  Neither the scan nor the loop looks a directive's name up in
    the catalog: whatever tools the session listed, with capabilities
    that do not fail the session's call-tool operation is called for
    every directive of the answer, with the name as the directive gives
    it, so the calls are determined by the answer alone. *)
Theorem dispatch_ignores_the_catalog (rt : Runtime) (W : Type)
    (caps : Capabilities W) :
  tools_reliable caps -> model_reliable caps ->
  forall query (st : state W) tools initial i name raw,
    answers_first rt caps query st tools initial ->
    nth_error (findall (isalnum rt) initial) i = Some (name, raw) ->
    nth_error (calls (events (process_query rt caps query) st)) i
    = Some (name, decoded_args rt raw)
    /\ (exists c,
          In (EvCallTool name (decoded_args rt raw) (inr c))
            (events (process_query rt caps query) st))
    /\ calls (events (process_query rt caps query) st)
       = map (dispatched rt) (findall (isalnum rt) initial).
Proof.
  intros Htools Hmodel query st tools initial i name raw Hfirst Hi.
  destruct (reliable_dispatch rt W caps Htools Hmodel query st tools initial
              Hfirst) as (_ & Hcalls & Hin).
  split; [|split].
  - now rewrite Hcalls, nth_error_map, Hi.
  - now apply (Hin i).
  - exact Hcalls.
Qed.

Lemma dispatch_ignores_the_catalog_witness :
  existsb (text_eqb (str "lookup")) (map tool_name [weather_tool]) = false
  /\ exists c,
       In (EvCallTool (str "lookup")
             (decoded_args ref_runtime (str "{city: Paris}")) (inr c))
         (events (process_query ref_runtime
                    (scripted_reliable two_directives_script)
                    (str "weather in Paris?")) start).
Proof.
  split; [reflexivity|].
  exact (proj1 (proj2 (dispatch_ignores_the_catalog ref_runtime
                         scripted_world
                         (scripted_reliable two_directives_script)
                         (scripted_tools_reliable two_directives_script)
                         (scripted_model_reliable two_directives_script)
                         (str "weather in Paris?") start [weather_tool]
                         two_directives 0 (str "lookup")
                         (str "{city: Paris}")
                         two_directives_answered eq_refl))).
Defined.

(** C10.  A payload that decodes to a JSON value that is not an object
    is not checked: with capabilities that do not fail, the session's
    call-tool operation receives the decoded value itself as the
    arguments of the directive, not the empty mapping. *)
Theorem non_object_arguments_pass_unchanged (rt : Runtime) (W : Type)
    (caps : Capabilities W) :
  tools_reliable caps -> model_reliable caps ->
  forall query (st : state W) tools initial i name raw v,
    answers_first rt caps query st tools initial ->
    nth_error (findall (isalnum rt) initial) i = Some (name, raw) ->
    json_loads rt raw = inr v ->
    is_dict v = false ->
    nth_error (calls (events (process_query rt caps query) st)) i
    = Some (name, v)
    /\ (exists c,
          In (EvCallTool name v (inr c))
            (events (process_query rt caps query) st))
    /\ v <> PDict [].
Proof.
  intros Htools Hmodel query st tools initial i name raw v Hfirst Hi Hv
    Hnot.
  destruct (reliable_dispatch rt W caps Htools Hmodel query st tools initial
              Hfirst) as (_ & Hcalls & Hin).
  assert (Hargs : decoded_args rt raw = v)
    by (unfold decoded_args; now rewrite Hv).
  split; [|split].
  - rewrite Hcalls, nth_error_map, Hi. unfold dispatched.
    cbn [option_map fst snd]. now rewrite Hargs.
  - destruct (Hin i name raw Hi) as (c & Hc). exists c.
    now rewrite <- Hargs.
  - intros ->. discriminate.
Qed.

Lemma non_object_arguments_pass_unchanged_witness :
  nth_error
    (calls (events (process_query ref_runtime
                      (scripted_reliable two_directives_script)
                      (str "weather in Paris?")) start)) 1
  = Some (str "get_weather", PInt 42).
Proof.
  exact (proj1 (non_object_arguments_pass_unchanged ref_runtime
                  scripted_world
                  (scripted_reliable two_directives_script)
                  (scripted_tools_reliable two_directives_script)
                  (scripted_model_reliable two_directives_script)
                  (str "weather in Paris?") start [weather_tool]
                  two_directives 1 (str "get_weather") (str "42") (PInt 42)
                  two_directives_answered eq_refl eq_refl eq_refl)).
Defined.


(* ------------------------------------------------------------------ *)
(** ** The interactive loop *)

Section LoopBoundary.
Variable rt : Runtime.
Variable W : Type.
Variable caps : Capabilities W.

Lemma runs_to_try_caught {A} (body : M W A) handler (st : state W) e w1
    evs1 r w2 evs2 :
  runs_to body st (inl e) w1 evs1 ->
  runs_to (handler e) {| world := w1; log := log st ++ evs1 |} r w2 evs2 ->
  runs_to (try_except body handler) st r w2 (evs1 ++ evs2).
Proof.
  unfold runs_to, try_except. intros -> ->. cbn [log].
  now rewrite app_assoc.
Qed.

(** A turn whose query ends with an exception prints it and asks for
    the next turn. *)
Lemma chat_loop_body_reports (st0 : state W) line w1 e w' evs :
  console_input caps (LF :: str "Query: ") (world st0) = (inr line, w1) ->
  text_eqb (str_lower rt (str_strip rt line)) (str "quit") = false ->
  runs_to (process_query rt caps (str_strip rt line))
    {| world := w1;
       log := log st0 ++ [EvInput (LF :: str "Query: ") (inr line)] |}
    (inl e) w' evs ->
  runs_to (chat_loop_body rt caps) st0 (inr true) w'
    (([EvInput (LF :: str "Query: ") (inr line)] ++ evs)
     ++ [EvPrint (LF :: str "Error: " ++ exn_str rt e)] ++ []).
Proof.
  intros Hinput Hquit Hquery. unfold chat_loop_body.
  eapply runs_to_try_caught.
  - eapply runs_to_bind.
    + apply runs_to_perform. exact Hinput.
    + cbn [world log]. rewrite Hquit.
      apply runs_to_bind_fail. exact Hquery.
  - eapply runs_to_bind; [apply runs_to_print | apply runs_to_ret].
Qed.
End LoopBoundary.

(** C3.  When the session's call-tool operation raises for a directive
    of a query typed at the prompt, [process_query] ends with that
    exception and returns no transcript; the failed call is its last
    interaction, so no later directive is dispatched and no follow-up is
    requested.  The turn of [chat_loop] catches the exception, prints it
    as an error line after what the query had printed, and goes on to
    the next turn. *)
Theorem failed_tool_call_aborts_the_query (rt : Runtime) (W : Type)
    (caps : Capabilities W) :
  forall (st0 : state W) line w1 name args e,
    console_input caps (LF :: str "Query: ") (world st0) = (inr line, w1) ->
    text_eqb (str_lower rt (str_strip rt line)) (str "quit") = false ->
    let query := str_strip rt line in
    let st :=
      {| world := w1;
         log := log st0 ++ [EvInput (LF :: str "Query: ") (inr line)] |} in
    In (EvCallTool name args (inl e))
      (events (process_query rt caps query) st) ->
    outcome (process_query rt caps query) st = inl e
    /\ (exists before,
          interactions (events (process_query rt caps query) st)
          = before ++ [EvCallTool name args (inl e)])
    /\ outcome (chat_loop_body rt caps) st0 = inr true
    /\ events (chat_loop_body rt caps) st0
       = EvInput (LF :: str "Query: ") (inr line)
         :: events (process_query rt caps query) st
         ++ [EvPrint (LF :: str "Error: " ++ exn_str rt e)]
    /\ forall turns,
         chat_loop_turns rt caps (S turns) st0
         = chat_loop_turns rt caps turns (snd (chat_loop_body rt caps st0)).
Proof.
  intros st0 line w1 name args e Hinput Hquit query st Hin.
  destruct (process_query_sound rt W caps query st)
    as (r & w' & evs & Hrun & Htrace).
  destruct (runs_to_outcome W _ _ _ _ _ Hrun) as [Hout Hev].
  rewrite Hev in Hin |- *. rewrite Hout.
  assert (Hin' : In (EvCallTool name args (inl e)) (interactions evs))
    by (apply in_interactions; split; [exact Hin | reflexivity]).
  destruct (query_trace_failed_call rt _ _ _ _ _ _ Htrace Hin')
    as (-> & before & Hlast).
  pose proof (chat_loop_body_reports rt W caps st0 line w1 e w' evs
                Hinput Hquit Hrun) as Hturn.
  destruct (runs_to_outcome W _ _ _ _ _ Hturn) as [Hout' Hev'].
  split; [reflexivity|]. split; [now exists before|].
  split; [exact Hout'|]. split.
  - rewrite Hev'. rewrite app_nil_r. reflexivity.
  - intros turns. cbn [chat_loop_turns]. unfold bind at 1.
    unfold runs_to in Hturn. rewrite Hturn. reflexivity.
Qed.

Lemma failed_tool_call_aborts_the_query_witness :
  calls (events (process_query ref_runtime
                   (scripted second_tool_fails_script)
                   (str "weather in Paris?"))
           {| world := (0, 1);
              log := [EvInput (LF :: str "Query: ")
                        (inr (str "  weather in Paris?  "))] |})
  = [(str "lookup", PDict []); (str "get_weather", PInt 42)]
  /\ outcome (process_query ref_runtime (scripted second_tool_fails_script)
                (str "weather in Paris?"))
       {| world := (0, 1);
          log := [EvInput (LF :: str "Query: ")
                    (inr (str "  weather in Paris?  "))] |}
     = inl (Raised (str "tool failed: get_weather"))
  /\ outcome (chat_loop_body ref_runtime (scripted second_tool_fails_script))
       start
     = inr true.
Proof.
  pose proof (failed_tool_call_aborts_the_query ref_runtime scripted_world
                (scripted second_tool_fails_script) start
                (str "  weather in Paris?  ") (0, 1) (str "get_weather")
                (PInt 42) (Raised (str "tool failed: get_weather"))
                eq_refl eq_refl) as H.
  cbv zeta in H.
  assert (Hin : In (EvCallTool (str "get_weather") (PInt 42)
                      (inl (Raised (str "tool failed: get_weather"))))
                  (events
                     (process_query ref_runtime
                        (scripted second_tool_fails_script)
                        (str_strip ref_runtime (str "  weather in Paris?  ")))
                     {| world := (0, 1);
                        log := log start
                               ++ [EvInput (LF :: str "Query: ")
                                     (inr (str "  weather in Paris?  "))] |})).
  { vm_compute. do 15 right. left. reflexivity. }
  destruct (H Hin) as (Hout & _ & Hloop & _).
  split; [reflexivity|]. split; [exact Hout | exact Hloop].
Defined.

(* ------------------------------------------------------------------ *)
(** ** The prompt *)

Section PromptFacts.
Variable rt : Runtime.

Lemma input_field_typed kv field :
  typed_property kv field ->
  input_field rt kv = inr (fst field ++ str ": " ++ py_str rt (snd field)).
Proof.
  intros (Hk & entries & Hv & Hty). unfold input_field, subscript.
  rewrite Hv, Hty, Hk. reflexivity.
Qed.

Lemma result_map_typed props fields :
  Forall2 typed_property props fields ->
  result_map (input_field rt) props
  = inr (map (fun f => fst f ++ str ": " ++ py_str rt (snd f)) fields).
Proof.
  induction 1 as [|kv field props fields Hkv _ IH]; [reflexivity|].
  cbn [result_map map]. rewrite (input_field_typed _ _ Hkv), IH.
  reflexivity.
Qed.

Lemma tool_line_rendered tool fields :
  schema_fields tool fields ->
  tool_line rt tool = inr (rendered_line rt tool fields).
Proof.
  intros (entries & props & Hs & Hp & Hf).
  unfold tool_line, input_fields, subscript, items.
  rewrite Hs, Hp. cbn [result_bind].
  rewrite (result_map_typed _ _ Hf). reflexivity.
Qed.

Lemma tool_info_rendered tools fields :
  Forall2 schema_fields tools fields ->
  forall acc,
    tool_info rt acc tools = inr (acc ++ rendered_lines rt tools fields).
Proof.
  induction 1 as [|tool fs tools fields Htool _ IH]; intros acc.
  - cbn. now rewrite app_nil_r.
  - cbn [tool_info rendered_lines].
    rewrite (tool_line_rendered _ _ Htool). cbn [result_bind].
    rewrite IH. now rewrite app_assoc.
Qed.

Lemma starts_with_app (needle rest : text) :
  starts_with needle (needle ++ rest) = true.
Proof.
  induction needle as [|c needle IH]; [reflexivity|].
  cbn [app starts_with]. now rewrite N.eqb_refl, IH.
Qed.

Lemma contains_app (needle before rest : text) :
  contains needle (before ++ needle ++ rest) = true.
Proof.
  induction before as [|x before IH]; cbn [app].
  - destruct (needle ++ rest) eqn:E; cbn [contains];
      rewrite <- E, starts_with_app; reflexivity.
  - cbn [contains]. rewrite IH. apply orb_true_r.
Qed.
End PromptFacts.

(** C7, as the code has it.  [openai_chat] puts exactly one system
    message in front of the history, which follows it unchanged.  With no
    catalog, or with an empty one, the system message is the bare
    instruction text, which has no tool block.  With a catalog of at
    least one tool, each with an input schema that has a [properties]
    mapping giving a [type] for every property, the system message is
    the instruction text followed by the tool block: its heading and one
    line per tool with the name, the description and the comma-joined
    [name: type] of the properties.  Every model request of a query after
    its first one is built with no catalog. *)
Theorem prompt_starts_with_one_system_message (rt : Runtime)
    (history : list message) (max_tokens : Z) :
  (forall catalog,
     catalog = None \/ catalog = Some [] ->
     chat_request rt history catalog max_tokens
     = inr (request_with system_msg_base history max_tokens)
     /\ has_tool_block system_msg_base = false)
  /\ (forall tools fields,
        tools <> [] ->
        Forall2 schema_fields tools fields ->
        chat_request rt history (Some tools) max_tokens
        = inr (request_with
                 (system_msg_base ++ [LF] ++ tool_info_header
                  ++ rendered_lines rt tools fields) history max_tokens)
        /\ has_tool_block
             (system_msg_base ++ [LF] ++ tool_info_header
              ++ rendered_lines rt tools fields) = true)
  /\ (forall (W : Type) (caps : Capabilities W) query (st : state W),
        Forall (fun req =>
                  exists h,
                    chat_request rt h None default_max_tokens = inr req)
          (tl (requests (events (process_query rt caps query) st)))).
Proof.
  split; [|split].
  - intros catalog [-> | ->]; split; reflexivity.
  - intros tools fields Hne Hf. split.
    + unfold chat_request, system_msg.
      destruct tools as [|tool tools]; [contradiction|].
      rewrite (tool_info_rendered rt _ _ Hf). reflexivity.
    + unfold has_tool_block, tool_info_header.
      change (system_msg_base ++ [LF]
              ++ (LF :: str "Available tools and their input schemas:"
                  ++ [LF]) ++ rendered_lines rt tools fields)
        with (system_msg_base ++ [LF]
              ++ LF :: (str "Available tools and their input schemas:"
                        ++ [LF]) ++ rendered_lines rt tools fields).
      rewrite <- app_assoc.
      replace (system_msg_base ++ [LF]
               ++ LF :: str "Available tools and their input schemas:"
               ++ [LF] ++ rendered_lines rt tools fields)
        with ((system_msg_base ++ [LF; LF])
              ++ str "Available tools and their input schemas:"
              ++ [LF] ++ rendered_lines rt tools fields)
        by (now rewrite <- app_assoc).
      apply contains_app.
  - intros W caps query st.
    destruct (process_query_sound rt W caps query st)
      as (r & w' & evs & Hrun & Htrace).
    apply runs_to_outcome in Hrun. destruct Hrun as [_ ->].
    apply query_trace_requests in Htrace.
    rewrite requests_interactions in Htrace.
    eapply Forall_impl; [|exact Htrace].
    intros req (h & ->). exists h. reflexivity.
Qed.

Lemma weather_schema_fields :
  schema_fields (tool_as_entry weather_tool)
    [(str "city", PStr (str "string")); (str "days", PStr (str "integer"))].
Proof.
  eexists. eexists. split; [reflexivity|]. split; [reflexivity|].
  repeat constructor; eexists; split; reflexivity.
Qed.

Lemma prompt_starts_with_one_system_message_witness :
  chat_request ref_runtime [user_message (str "hello")]
    (Some [tool_as_entry weather_tool]) 1000
  = inr (request_with
           (system_msg_base ++ [LF] ++ tool_info_header
            ++ str "- get_weather: Weather for a city (Inputs: city: string, days: integer)"
            ++ [LF])
           [user_message (str "hello")] 1000).
Proof.
  exact (proj1 (proj1 (proj2 (prompt_starts_with_one_system_message
                                ref_runtime [user_message (str "hello")]
                                1000))
                  [tool_as_entry weather_tool]
                  [[(str "city", PStr (str "string"));
                    (str "days", PStr (str "integer"))]]
                  (fun H => match H with end)
                  (Forall2_cons _ _ weather_schema_fields (Forall2_nil _)))).
Defined.

(** C7, as the specification states it, fails for a catalog that is
    supplied but empty: the request is the one built for no catalog, and
    no message of it has a tool block.  So it is not true that every
    supplied catalog gives a system message with a tool block.  (A
    catalog with a property that declares no type gives no request at
    all: the lookup of the type raises.) *)
Lemma supplied_empty_catalog_has_no_tool_block :
  chat_request ref_runtime [user_message (str "hello")] (Some []) 1000
  = chat_request ref_runtime [user_message (str "hello")] None 1000
  /\ ~ (forall catalog : list tool_entry,
          exists req,
            chat_request ref_runtime [user_message (str "hello")]
              (Some catalog) 1000 = inr req
            /\ existsb (fun m => has_tool_block (msg_content m))
                 (req_messages req) = true)
  /\ chat_request ref_runtime [user_message (str "hello")]
       (Some [tool_as_entry untyped_tool]) 1000
     = inl (KeyError (str "type")).
Proof.
  split; [reflexivity|]. split; [|reflexivity].
  intros H. destruct (H []) as (req & Hreq & Hblock).
  vm_compute in Hreq. inversion Hreq; subst req.
  vm_compute in Hblock. discriminate.
Qed.

(* ================================================================== *)
(** * Further properties of the scan and of the conversation loop *)

Section ScanApart.
Variable w : char -> bool.
Hypothesis space_not_alnum : w SPACE = false.

(** After a match the scan goes on behind the matched token. *)
Lemma finditer_from_apart (fuel : nat) :
  forall pos0 s i pos n p pos' g',
    nth_error (finditer_from w fuel pos0 s) i = Some (pos, (n, p)) ->
    nth_error (finditer_from w fuel pos0 s) (S i) = Some (pos', g') ->
    pos + length (directive_token n p) <= pos'.
Proof.
  induction fuel as [|f IH]; intros pos0 s i pos n p pos' g' Hi Hnext;
    [destruct i; discriminate|].
  cbn [finditer_from] in Hi, Hnext.
  destruct (match_tool_call w s) as [[g rest]|] eqn:Hm.
  - destruct i as [|i].
    + cbn [nth_error] in Hi. inversion Hi; subst.
      assert (Hin : In (pos', g')
                      (finditer_from w f
                         (pos + (length s - length rest)) rest))
        by (apply (nth_error_In _ 0); exact Hnext).
      destruct (finditer_from_sound w space_not_alnum _ _ _ _ _ Hin)
        as (Hle & _).
      destruct (match_tool_call_sound w space_not_alnum _ _ _ _ Hm)
        as (Hs & _ & _).
      rewrite Hs, length_app in Hle. lia.
    + exact (IH _ _ _ _ _ _ _ _ Hi Hnext).
  - destruct s as [|x s]; [destruct i; discriminate|].
    exact (IH _ _ _ _ _ _ _ _ Hi Hnext).
Qed.

Lemma finditer_inside (s : text) pos n p :
  In (pos, (n, p)) (finditer w s) ->
  pos + length (directive_token n p) <= length s.
Proof.
  intros Hin.
  destruct (finditer_sound w space_not_alnum _ _ _ Hin) as (rest & Hm).
  destruct (match_tool_call_sound w space_not_alnum _ _ _ _ Hm)
    as (Hs & _ & _).
  pose proof (f_equal (@length char) Hs) as Hlen.
  rewrite length_skipn, length_app in Hlen.
  pose proof (directive_token_length n p). lia.
Qed.
End ScanApart.

(** X1.  The directives the scan finds do not overlap: each one lies
    inside the scanned text, and the next one starts at or behind the
    closing bracket of the one before.  A directive written inside the
    payload of another is therefore never found. *)
Theorem found_directives_do_not_overlap (rt : Runtime) :
  ascii_faithful rt ->
  forall s i pos name payload,
    nth_error (finditer (isalnum rt) s) i = Some (pos, (name, payload)) ->
    pos + length (directive_token name payload) <= length s
    /\ forall pos' groups,
         nth_error (finditer (isalnum rt) s) (S i) = Some (pos', groups) ->
         pos + length (directive_token name payload) <= pos'.
Proof.
  intros Hascii s i pos name payload Hi.
  pose proof (ascii_space_not_alnum rt Hascii) as Hsp. split.
  - apply (finditer_inside _ Hsp). eapply nth_error_In. exact Hi.
  - intros pos' groups Hnext.
    exact (finditer_from_apart _ Hsp _ _ _ _ _ _ _ _ _ Hi Hnext).
Qed.

Lemma found_directives_do_not_overlap_witness :
  7 + length (directive_token (str "lookup") (str "{city: Paris}"))
  <= length two_directives
  /\ forall pos' groups,
       nth_error (finditer (isalnum ref_runtime) two_directives) 1
       = Some (pos', groups) ->
       7 + length (directive_token (str "lookup") (str "{city: Paris}"))
       <= pos'.
Proof.
  exact (found_directives_do_not_overlap ref_runtime (fun c _ => eq_refl)
           two_directives 0 7 (str "lookup") (str "{city: Paris}")
           eq_refl).
Defined.

Section MoreTraceFacts.
Variable rt : Runtime.

Lemma loop_trace_failure ds h segs evs r :
  loop_trace rt ds h segs evs r ->
  forall e, r = inl e ->
    exists before ev, evs = before ++ [ev] /\ failed_with e ev.
Proof.
  induction 1 as [h segs | n0 raw ds h segs e0 | n0 raw ds h segs c e0
                  | n0 raw ds h segs c t evs r Hloop IH]; intros e He.
  - discriminate.
  - inversion He; subst. exists [], (EvCallTool n0 (decoded_args rt raw)
                                    (inl e)). split; reflexivity.
  - inversion He; subst. eexists [_], _. split; reflexivity.
  - destruct (IH e He) as (before & ev & -> & Hev).
    exists (EvCallTool n0 (decoded_args rt raw) (inr c)
            :: EvComplete (followup_request (h ++ executed_entries n0 c))
                 (inr t) :: before), ev.
    split; [reflexivity | exact Hev].
Qed.

Lemma query_trace_failure query evs e :
  query_trace rt query evs (inl e) ->
  (exists before ev, evs = before ++ [ev] /\ failed_with e ev)
  \/ (exists tools,
        evs = [EvListTools (inr tools)]
        /\ initial_request rt query tools = inl e).
Proof.
  intros H. inversion H as [e0 | tools e0 Hreq | tools req e0 Hreq
                            | tools req initial evs' r' Hreq Hloop Hevs Hr];
    subst.
  - left. exists [], (EvListTools (inl e)). split; reflexivity.
  - right. exists tools. split; [reflexivity | exact Hreq].
  - left. eexists [_], _. split; reflexivity.
  - destruct r' as [e'|acc]; [|discriminate]. cbn in Hr.
    inversion Hr; subst.
    destruct (loop_trace_failure _ _ _ _ _ Hloop e eq_refl)
      as (before & ev & -> & Hev).
    left. exists (EvListTools (inr tools) :: EvComplete req (inr initial)
                  :: before), ev.
    split; [reflexivity | exact Hev].
Qed.

(** A failed interaction of the loop is its last one. *)
Lemma loop_trace_failed_last ds h segs evs r ev e :
  loop_trace rt ds h segs evs r ->
  In ev evs -> failed_with e ev ->
  r = inl e /\ exists before, evs = before ++ [ev].
Proof.
  induction 1 as [h segs | n0 raw ds h segs e0 | n0 raw ds h segs c e0
                  | n0 raw ds h segs c t evs r Hloop IH]; intros Hin Hev.
  - contradiction.
  - destruct Hin as [<-|[]]. cbn in Hev. subst.
    split; [reflexivity | now exists []].
  - destruct Hin as [<-|[<-|[]]]; cbn in Hev; [contradiction|]. subst.
    split; [reflexivity|]. now eexists [_].
  - destruct Hin as [<-|[<-|Hin]]; cbn in Hev; try contradiction.
    destruct (IH Hin Hev) as (-> & before & ->).
    split; [reflexivity|]. eexists (_ :: _ :: before). reflexivity.
Qed.

Lemma query_trace_failed_last query evs r ev e :
  query_trace rt query evs r ->
  In ev evs -> failed_with e ev ->
  r = inl e /\ exists before, evs = before ++ [ev].
Proof.
  intros [e0 | tools e0 Hreq | tools req e0 Hreq
          | tools req initial evs' r' Hreq Hloop] Hin Hev.
  - destruct Hin as [<-|[]]. cbn in Hev. subst.
    split; [reflexivity | now exists []].
  - destruct Hin as [<-|[]]. contradiction.
  - destruct Hin as [<-|[<-|[]]]; cbn in Hev; [contradiction|]. subst.
    split; [reflexivity|]. now eexists [_].
  - destruct Hin as [<-|[<-|Hin]]; cbn in Hev; try contradiction.
    destruct (loop_trace_failed_last _ _ _ _ _ _ _ Hloop Hin Hev)
      as (-> & before & ->).
    split; [reflexivity|]. eexists (_ :: _ :: before). reflexivity.
Qed.

(** The loop only calls tools and the model. *)
Lemma loop_trace_kinds ds h segs evs r :
  loop_trace rt ds h segs evs r ->
  Forall (fun ev =>
            match ev with
            | EvCallTool _ _ _ | EvComplete _ _ => True
            | _ => False
            end) evs.
Proof.
  induction 1; repeat constructor; assumption.
Qed.

(** The calls of the loop are the first directives, in their order. *)
Lemma loop_trace_calls ds h segs evs r :
  loop_trace rt ds h segs evs r ->
  calls evs = firstn (length (calls evs)) (map (dispatched rt) ds).
Proof.
  induction 1 as [h segs | n0 raw ds h segs e0 | n0 raw ds h segs c e0
                  | n0 raw ds h segs c t evs r Hloop IH].
  - reflexivity.
  - reflexivity.
  - reflexivity.
  - cbn [calls flat_map app length map firstn]. fold (calls evs).
    unfold dispatched at 1. cbn [fst snd]. f_equal. exact IH.
Qed.

(** A loop that ends without an exception went through every round. *)
Lemma loop_trace_success ds h segs evs r :
  loop_trace rt ds h segs evs r ->
  forall h' segs', r = inr (h', segs') ->
    exists rounds,
      length rounds = length ds
      /\ evs = expected_rounds rt h ds rounds
      /\ segs' = segs ++ map snd rounds.
Proof.
  induction 1 as [h segs | n0 raw ds h segs e0 | n0 raw ds h segs c e0
                  | n0 raw ds h segs c t evs r Hloop IH];
    intros h' segs' Hr.
  - inversion Hr; subst. exists []. cbn. now rewrite app_nil_r.
  - discriminate.
  - discriminate.
  - destruct (IH h' segs' Hr) as (rounds & Hlen & -> & ->).
    exists ((c, t) :: rounds). cbn [length map snd expected_rounds].
    rewrite Hlen, <- app_assoc. auto.
Qed.
End MoreTraceFacts.

Section MoreRunFacts.
Variable rt : Runtime.
Variable W : Type.
Variable caps : Capabilities W.

(** The trace of a query the model has answered. *)
Lemma process_query_loop_trace (query : text) (st : state W) tools initial :
  answers_first rt caps query st tools initial ->
  exists req evs r,
    outcome (process_query rt caps query) st = transcript_of r
    /\ interactions (events (process_query rt caps query) st)
       = EvListTools (inr tools) :: EvComplete req (inr initial) :: evs
    /\ loop_trace rt (findall (isalnum rt) initial) [user_message query]
         [initial] evs r.
Proof.
  intros (w1 & req & w2 & Hl & Hreq & Hc).
  destruct (process_query_answered rt W caps query st _ _ _ _ _ Hl Hreq Hc)
    as (evs0 & Hevs0 & Hrun).
  destruct (for_each_sound rt W caps (findall (isalnum rt) initial)
              [user_message query] [initial]
              {| world := w2; log := log st ++ evs0 |})
    as (r & w' & evs & Hloop & Htrace).
  apply Hrun in Hloop. apply runs_to_outcome in Hloop.
  destruct Hloop as [Hout Hev].
  exists req, (interactions evs), r. split; [exact Hout|]. split.
  - now rewrite Hev, interactions_app, Hevs0.
  - exact Htrace.
Qed.

Lemma process_query_trace (query : text) (st : state W) :
  query_trace rt query
    (interactions (events (process_query rt caps query) st))
    (outcome (process_query rt caps query) st).
Proof.
  destruct (process_query_sound rt W caps query st)
    as (r & w' & evs & Hrun & Htrace).
  apply runs_to_outcome in Hrun. destruct Hrun as [-> ->]. exact Htrace.
Qed.
End MoreRunFacts.

(** X2.  An exception that ends [process_query] has a cause outside the
    loop's own work: either the last interaction of the run (the listing
    of the tools, a model call or a tool call) raised it, or the session
    listed the tools and the first prompt could not be built from them,
    in which case nothing else was done.  A payload that does not decode
    is never the cause. *)
Theorem query_exception_has_a_cause (rt : Runtime) (W : Type)
    (caps : Capabilities W) :
  forall query (st : state W) e,
    outcome (process_query rt caps query) st = inl e ->
    (exists before ev,
       interactions (events (process_query rt caps query) st)
       = before ++ [ev]
       /\ failed_with e ev)
    \/ (exists tools,
          interactions (events (process_query rt caps query) st)
          = [EvListTools (inr tools)]
          /\ initial_request rt query tools = inl e).
Proof.
  intros query st e Hout.
  pose proof (process_query_trace rt W caps query st) as Htrace.
  rewrite Hout in Htrace. now apply query_trace_failure.
Qed.

Lemma second_tool_fails_outcome :
  outcome (process_query ref_runtime (scripted second_tool_fails_script)
             (str "weather in Paris?")) start
  = inl (Raised (str "tool failed: get_weather")).
Proof. reflexivity. Qed.

Lemma query_exception_has_a_cause_witness :
  (exists before ev,
     interactions
       (events (process_query ref_runtime
                  (scripted second_tool_fails_script)
                  (str "weather in Paris?")) start)
     = before ++ [ev]
     /\ failed_with (Raised (str "tool failed: get_weather")) ev)
  \/ (exists tools,
        interactions
          (events (process_query ref_runtime
                     (scripted second_tool_fails_script)
                     (str "weather in Paris?")) start)
        = [EvListTools (inr tools)]
        /\ initial_request ref_runtime (str "weather in Paris?") tools
           = inl (Raised (str "tool failed: get_weather"))).
Proof.
  exact (query_exception_has_a_cause ref_runtime scripted_world
           (scripted second_tool_fails_script) (str "weather in Paris?")
           start (Raised (str "tool failed: get_weather"))
           second_tool_fails_outcome).
Defined.

(** X3.  Whatever capability fails, the query stops there: an
    interaction of [process_query] that raised (the listing of the tools,
    the first or a follow-up model call, a tool call) is the last
    interaction of the run, and its exception is the outcome.  Nothing is
    retried and nothing is called after a failure. *)
Theorem failed_interaction_ends_the_query (rt : Runtime) (W : Type)
    (caps : Capabilities W) :
  forall query (st : state W) ev e,
    In ev (events (process_query rt caps query) st) ->
    failed_with e ev ->
    outcome (process_query rt caps query) st = inl e
    /\ exists before,
         interactions (events (process_query rt caps query) st)
         = before ++ [ev].
Proof.
  intros query st ev e Hin Hev.
  pose proof (process_query_trace rt W caps query st) as Htrace.
  apply (query_trace_failed_last rt _ _ _ _ _ Htrace); [|exact Hev].
  apply in_interactions. split; [exact Hin|].
  destruct ev; try reflexivity. contradiction.
Qed.

Lemma failed_interaction_ends_the_query_witness :
  outcome (process_query ref_runtime
             (model_fails_after 1 two_directives_script)
             (str "weather in Paris?")) start
  = inl (Raised (str "model unavailable"))
  /\ exists before,
       interactions
         (events (process_query ref_runtime
                    (model_fails_after 1 two_directives_script)
                    (str "weather in Paris?")) start)
       = before
         ++ [EvComplete (followup_request after_lookup)
               (inl (Raised (str "model unavailable")))].
Proof.
  apply (failed_interaction_ends_the_query ref_runtime scripted_world
           (model_fails_after 1 two_directives_script)
           (str "weather in Paris?") start
           (EvComplete (followup_request after_lookup)
              (inl (Raised (str "model unavailable"))))
           (Raised (str "model unavailable"))).
  - vm_compute. do 11 right. left. reflexivity.
  - reflexivity.
Defined.

(** X4.  The session is asked for its tools exactly once per query, and
    before anything else: the interactions of every run of
    [process_query] start with the listing of the tools, and all that
    follow are model calls and tool calls. *)
Theorem tools_are_listed_once_and_first (rt : Runtime) (W : Type)
    (caps : Capabilities W) (query : text) (st : state W) :
  exists r rest,
    interactions (events (process_query rt caps query) st)
    = EvListTools r :: rest
    /\ Forall (fun ev =>
                 match ev with
                 | EvCallTool _ _ _ | EvComplete _ _ => True
                 | _ => False
                 end) rest.
Proof.
  destruct (process_query_trace rt W caps query st)
    as [e0 | tools e0 Hreq | tools req e0 Hreq
        | tools req initial evs' r' Hreq Hloop].
  - eexists _, _. split; [reflexivity | constructor].
  - eexists _, _. split; [reflexivity | constructor].
  - eexists _, _. split; [reflexivity | repeat constructor].
  - eexists _, _. split; [reflexivity|]. constructor; [exact I|].
    exact (loop_trace_kinds rt _ _ _ _ _ Hloop).
Qed.

(** X5.  In every run the model has answered, with or without failures
    later on, the tool calls made are the first directives of the answer
    in the order of the scan, each with its decoded arguments: no
    directive is skipped, called twice or called out of order, and no
    tool is called that the answer does not name. *)
Theorem tool_calls_are_a_prefix_of_the_directives (rt : Runtime)
    (W : Type) (caps : Capabilities W) :
  forall query (st : state W) tools initial,
    answers_first rt caps query st tools initial ->
    calls (events (process_query rt caps query) st)
    = firstn (length (calls (events (process_query rt caps query) st)))
        (map (dispatched rt) (findall (isalnum rt) initial)).
Proof.
  intros query st tools initial Hfirst.
  destruct (process_query_loop_trace rt W caps query st tools initial
              Hfirst) as (req & evs & r & _ & Hevs & Hloop).
  rewrite <- calls_interactions, Hevs.
  cbn [calls flat_map app]. fold (calls evs).
  exact (loop_trace_calls rt _ _ _ _ _ Hloop).
Qed.

Lemma first_tool_fails_answered :
  answers_first ref_runtime (scripted first_tool_fails_script)
    (str "weather in Paris?") start [weather_tool] two_directives.
Proof. eexists. eexists. eexists. repeat split; reflexivity. Qed.

Lemma tool_calls_are_a_prefix_of_the_directives_witness :
  calls (events (process_query ref_runtime
                   (scripted first_tool_fails_script)
                   (str "weather in Paris?")) start)
  = firstn 1
      (map (dispatched ref_runtime)
         (findall (isalnum ref_runtime) two_directives)).
Proof.
  exact (tool_calls_are_a_prefix_of_the_directives ref_runtime
           scripted_world (scripted first_tool_fails_script)
           (str "weather in Paris?") start [weather_tool] two_directives
           first_tool_fails_answered).
Defined.

(** X6.  A transcript that [process_query] returns is never partial:
    when the run ends without an exception, the model answered, every
    directive of the answer was dispatched and followed up, and the
    text returned is the answer followed, for each directive in turn,
    by one line feed and the follow-up of that directive. *)
Theorem returned_transcript_is_complete (rt : Runtime) (W : Type)
    (caps : Capabilities W) :
  forall query (st : state W) transcript,
    outcome (process_query rt caps query) st = inr transcript ->
    exists tools req initial rounds,
      length rounds = length (findall (isalnum rt) initial)
      /\ interactions (events (process_query rt caps query) st)
         = EvListTools (inr tools) :: EvComplete req (inr initial)
           :: expected_rounds rt [user_message query]
                (findall (isalnum rt) initial) rounds
      /\ transcript
         = initial
           ++ flat_map (fun followup => LF :: followup) (map snd rounds).
Proof.
  intros query st transcript Hout.
  pose proof (process_query_trace rt W caps query st) as Htrace.
  rewrite Hout in Htrace.
  inversion Htrace as [ | | | tools req initial evs' r' Hreq Hloop Hevs Hr].
  destruct r' as [e|[h' segs']]; [discriminate|].
  cbn in Hr. inversion Hr; subst.
  destruct (loop_trace_success rt _ _ _ _ _ Hloop h' segs' eq_refl)
    as (rounds & Hlen & -> & ->).
  exists tools, req, initial, rounds.
  split; [exact Hlen|]. split; [reflexivity|].
  exact (join_lines initial (map snd rounds)).
Qed.

Lemma two_directives_outcome :
  outcome (process_query ref_runtime (scripted two_directives_script)
             (str "weather in Paris?")) start
  = inr (str "On it. [TOOL_CALL: lookup {city: Paris}] then [TOOL_CALL: get_weather 42]"
         ++ LF :: str "Looked up."
         ++ LF :: str "It is sunny.").
Proof. reflexivity. Qed.

Lemma returned_transcript_is_complete_witness :
  exists tools req initial rounds,
    length rounds = length (findall (isalnum ref_runtime) initial)
    /\ interactions
         (events (process_query ref_runtime (scripted two_directives_script)
                    (str "weather in Paris?")) start)
       = EvListTools (inr tools) :: EvComplete req (inr initial)
         :: expected_rounds ref_runtime
              [user_message (str "weather in Paris?")]
              (findall (isalnum ref_runtime) initial) rounds
    /\ str "On it. [TOOL_CALL: lookup {city: Paris}] then [TOOL_CALL: get_weather 42]"
       ++ LF :: str "Looked up."
       ++ LF :: str "It is sunny."
       = initial
         ++ flat_map (fun followup => LF :: followup) (map snd rounds).
Proof.
  exact (returned_transcript_is_complete ref_runtime scripted_world
           (scripted two_directives_script) (str "weather in Paris?") start
           _ two_directives_outcome).
Defined.

(* ------------------------------------------------------------------ *)
(** ** Input schemas the prompt cannot be built from *)

Section SchemaErrors.
Variable rt : Runtime.

Lemma result_map_first_bad (typed : list (text * pyvalue)) fields kv more e :
  Forall2 typed_property typed fields ->
  input_field rt kv = inl e ->
  result_map (input_field rt) (typed ++ kv :: more) = inl e.
Proof.
  induction 1 as [|p f typed fields Hp _ IH]; intros Hbad.
  - cbn [app result_map]. now rewrite Hbad.
  - cbn [app result_map]. rewrite (input_field_typed rt _ _ Hp).
    cbn [result_bind]. now rewrite (IH Hbad).
Qed.

Lemma tool_info_first_bad (good : list tool_entry) fields bad rest e :
  Forall2 schema_fields good fields ->
  tool_line rt bad = inl e ->
  forall acc, tool_info rt acc (good ++ bad :: rest) = inl e.
Proof.
  induction 1 as [|tool fs good fields Htool _ IH]; intros Hbad acc.
  - cbn [app tool_info]. now rewrite Hbad.
  - cbn [app tool_info]. rewrite (tool_line_rendered rt _ _ Htool).
    cbn [result_bind]. now apply IH.
Qed.

Lemma chat_request_first_bad (good : list tool_entry) fields bad rest e h
    max :
  Forall2 schema_fields good fields ->
  tool_line rt bad = inl e ->
  chat_request rt h (Some (good ++ bad :: rest)) max = inl e.
Proof.
  intros Hgood Hbad. unfold chat_request, system_msg.
  destruct (good ++ bad :: rest) as [|t ts] eqn:E;
    [destruct good; discriminate|].
  rewrite <- E, (tool_info_first_bad _ _ _ _ _ Hgood Hbad). reflexivity.
Qed.
End SchemaErrors.

(** X7.  How the line of a tool fails to render.  An input schema that
    is not a mapping raises [TypeError]; one without a [properties] entry
    raises [KeyError] for [properties]; a [properties] entry that is not
    a mapping raises [AttributeError]; and after properties that declare
    their type, the first property that is not a mapping raises
    [TypeError] and the first that is a mapping without a [type] entry
    raises [KeyError] for [type]. *)
Theorem tool_line_schema_errors (rt : Runtime) (tool : tool_entry) :
  (is_dict (e_input_schema tool) = false ->
   tool_line rt tool = inl TypeError)
  /\ (forall entries,
        e_input_schema tool = PDict entries ->
        (assoc (str "properties") entries = None ->
         tool_line rt tool = inl (KeyError (str "properties")))
        /\ (forall v,
              assoc (str "properties") entries = Some v ->
              is_dict v = false ->
              tool_line rt tool = inl AttributeError)
        /\ (forall typed fields k v more,
              assoc (str "properties") entries
              = Some (PDict (typed ++ (k, v) :: more)) ->
              Forall2 typed_property typed fields ->
              (is_dict v = false -> tool_line rt tool = inl TypeError)
              /\ (forall ventries,
                    v = PDict ventries ->
                    assoc (str "type") ventries = None ->
                    tool_line rt tool = inl (KeyError (str "type"))))).
Proof.
  split.
  - intros Hnot. unfold tool_line, input_fields, subscript.
    destruct (e_input_schema tool); try reflexivity. discriminate.
  - intros entries Hs. split; [|split].
    + intros Hnone. unfold tool_line, input_fields, subscript.
      now rewrite Hs, Hnone.
    + intros v Hv Hnot. unfold tool_line, input_fields, subscript, items.
      rewrite Hs, Hv. cbn [result_bind].
      destruct v; try reflexivity. discriminate.
    + intros typed fields k v more Hp Htyped.
      assert (Hline : forall e,
                 input_field rt (k, v) = inl e -> tool_line rt tool = inl e).
      { intros e He. unfold tool_line, input_fields, subscript, items.
        rewrite Hs, Hp. cbn [result_bind].
        now rewrite (result_map_first_bad rt _ _ _ _ _ Htyped He). }
      split.
      * intros Hnot. apply Hline. unfold input_field, subscript.
        cbn [snd]. destruct v; try reflexivity. discriminate.
      * intros ventries -> Hnone. apply Hline.
        unfold input_field, subscript. cbn [snd]. now rewrite Hnone.
Qed.

Lemma tool_line_schema_errors_witness :
  tool_line ref_runtime (tool_as_entry untyped_tool)
  = inl (KeyError (str "type")).
Proof.
  exact (proj2 (proj2 (proj2 (proj2 (tool_line_schema_errors ref_runtime
                                       (tool_as_entry untyped_tool)) _
                                eq_refl))
                  [] [] (str "limit") _ [] eq_refl (Forall2_nil _)) _
           eq_refl eq_refl).
Defined.

(** X8.  A tool whose line cannot be rendered stops the query before the
    model is asked: when the session lists tools of which the first that
    fails to render raises [e], [process_query] ends with [e] right
    after the listing, with no model call and no tool call. *)
Theorem broken_schema_stops_the_query (rt : Runtime) (W : Type)
    (caps : Capabilities W) :
  forall query (st : state W) good bad rest fields w1 e,
    session_list_tools caps (world st) = (inr (good ++ bad :: rest), w1) ->
    Forall2 schema_fields (map tool_as_entry good) fields ->
    tool_line rt (tool_as_entry bad) = inl e ->
    outcome (process_query rt caps query) st = inl e
    /\ interactions (events (process_query rt caps query) st)
       = [EvListTools (inr (good ++ bad :: rest))].
Proof.
  intros query st good bad rest fields w1 e Hl Hgood Hbad.
  assert (Hreq : initial_request rt query (good ++ bad :: rest) = inl e).
  { unfold initial_request. rewrite map_app. cbn [map].
    exact (chat_request_first_bad rt _ _ _ _ _ _ _ Hgood Hbad). }
  assert (Hrun : exists evs,
             runs_to (process_query rt caps query) st (inl e) w1 evs
             /\ interactions evs = [EvListTools (inr (good ++ bad :: rest))]).
  { eexists. split.
    - unfold process_query.
      eapply runs_to_bind; [apply runs_to_print | cbn [world log]].
      eapply runs_to_bind;
        [apply runs_to_perform; exact Hl | cbn [world log]].
      eapply runs_to_bind; [apply runs_to_print | cbn [world log]].
      eapply runs_to_bind; [apply runs_to_print | cbn [world log]].
      apply runs_to_bind_fail.
      apply runs_to_openai_chat_unbuilt. exact Hreq.
    - reflexivity. }
  destruct Hrun as (evs & Hrun & Hevs).
  apply runs_to_outcome in Hrun. destruct Hrun as [-> ->]. auto.
Qed.

Lemma broken_schema_stops_the_query_witness :
  outcome (process_query ref_runtime (scripted untyped_catalog_script)
             (str "hello")) start
  = inl (KeyError (str "type"))
  /\ interactions
       (events (process_query ref_runtime (scripted untyped_catalog_script)
                  (str "hello")) start)
     = [EvListTools (inr ([weather_tool] ++ untyped_tool :: []))].
Proof.
  exact (broken_schema_stops_the_query ref_runtime scripted_world
           (scripted untyped_catalog_script) (str "hello") start
           [weather_tool] untyped_tool []
           [[(str "city", PStr (str "string"));
             (str "days", PStr (str "integer"))]]
           (0, 0) (KeyError (str "type")) eq_refl
           (Forall2_cons _ _ weather_schema_fields (Forall2_nil _))
           eq_refl).
Defined.

(* ------------------------------------------------------------------ *)
(** ** More on the interactive loop *)

Section LoopTurns.
Variable rt : Runtime.
Variable W : Type.
Variable caps : Capabilities W.

Lemma runs_to_try_ok {A} (body : M W A) handler (st : state W) a w1 evs1 :
  runs_to body st (inr a) w1 evs1 ->
  runs_to (try_except body handler) st (inr a) w1 evs1.
Proof. unfold runs_to, try_except. now intros ->. Qed.

(** A turn always ends in one of three ways. *)
Lemma chat_loop_body_runs (st : state W) :
  exists continue w' evs,
    runs_to (chat_loop_body rt caps) st (inr continue) w' evs.
Proof.
  destruct (console_input caps (LF :: str "Query: ") (world st))
    as [[e|line] w1] eqn:Hinput.
  - eexists _, _, _. unfold chat_loop_body.
    eapply runs_to_try_caught.
    + apply runs_to_bind_fail. apply runs_to_perform. exact Hinput.
    + eapply runs_to_bind; [apply runs_to_print | apply runs_to_ret].
  - destruct (text_eqb (str_lower rt (str_strip rt line)) (str "quit"))
      eqn:Hquit.
    + eexists _, _, _. unfold chat_loop_body. apply runs_to_try_ok.
      eapply runs_to_bind; [apply runs_to_perform; exact Hinput|].
      cbn [world log]. rewrite Hquit. apply runs_to_ret.
    + destruct (process_query_sound rt W caps (str_strip rt line)
                  {| world := w1;
                     log := log st
                            ++ [EvInput (LF :: str "Query: ") (inr line)] |})
        as ([e|response] & w' & evs & Hrun & _).
      * eexists _, _, _.
        exact (chat_loop_body_reports rt W caps st line w1 e w' evs
                 Hinput Hquit Hrun).
      * eexists _, _, _. unfold chat_loop_body. apply runs_to_try_ok.
        eapply runs_to_bind; [apply runs_to_perform; exact Hinput|].
        cbn [world log]. rewrite Hquit.
        eapply runs_to_bind; [exact Hrun|].
        eapply runs_to_bind; [apply runs_to_print | apply runs_to_ret].
Qed.

Lemma chat_loop_turns_runs (turns : nat) :
  forall st : state W,
  exists ended w' evs,
    runs_to (chat_loop_turns rt caps turns) st (inr ended) w' evs.
Proof.
  induction turns as [|turns IH]; intros st.
  - eexists _, _, _. apply runs_to_ret.
  - cbn [chat_loop_turns].
    destruct (chat_loop_body_runs st) as ([|] & w1 & evs1 & Hbody).
    + destruct (IH {| world := w1; log := log st ++ evs1 |})
        as (ended & w' & evs & Hrest).
      eexists _, _, _. eapply runs_to_bind; [exact Hbody | exact Hrest].
    + eexists _, _, _. eapply runs_to_bind; [exact Hbody|].
      apply runs_to_ret.
Qed.

Lemma chat_loop_runs (turns : nat) (st : state W) :
  exists ended w' evs,
    runs_to (chat_loop rt caps turns) st (inr ended) w' evs.
Proof.
  unfold chat_loop.
  destruct (chat_loop_turns_runs turns
              {| world := world st;
                 log := (log st ++ [EvPrint (LF :: str "MCP Client Started!")])
                        ++ [EvPrint
                              (str "Type your queries or 'quit' to exit.")] |})
    as (ended & w' & evs & Hrun).
  eexists _, _, _.
  eapply runs_to_bind; [apply runs_to_print | cbn [world log]].
  eapply runs_to_bind; [apply runs_to_print | cbn [world log]].
  exact Hrun.
Qed.
End LoopTurns.

(** X9.  Every exception of a turn is reported, and the loop goes on.
    The exceptions meant are the ones of class [Exception], which are
    the ones the model has; an interrupt or a cancellation is not
    covered.  A turn of [chat_loop] does one of four things.  When the
    reading of the line raises, the turn prints the error line with the
    text of the exception and asks for the next turn.  When the line is
    [quit] once stripped and lowered, the turn breaks the loop.
    Otherwise it runs [process_query] on the stripped line and prints
    one more line, the transcript when the query returned one and the
    error line with the text of the exception when the query raised,
    and asks for the next turn.  So the loop over any number of turns
    ends without such an exception. *)
Theorem every_exception_of_a_turn_is_reported (rt : Runtime) (W : Type)
    (caps : Capabilities W) :
  (forall st : state W,
     match console_input caps (LF :: str "Query: ") (world st) with
     | (inl e, _) =>
         outcome (chat_loop_body rt caps) st = inr true
         /\ events (chat_loop_body rt caps) st
            = [EvInput (LF :: str "Query: ") (inl e);
               EvPrint (LF :: str "Error: " ++ exn_str rt e)]
     | (inr line, w1) =>
         let query := str_strip rt line in
         let asked :=
           {| world := w1;
              log := log st
                     ++ [EvInput (LF :: str "Query: ") (inr line)] |} in
         if text_eqb (str_lower rt query) (str "quit") then
           outcome (chat_loop_body rt caps) st = inr false
           /\ events (chat_loop_body rt caps) st
              = [EvInput (LF :: str "Query: ") (inr line)]
         else
           outcome (chat_loop_body rt caps) st = inr true
           /\ events (chat_loop_body rt caps) st
              = EvInput (LF :: str "Query: ") (inr line)
                :: events (process_query rt caps query) asked
                ++ [EvPrint
                      (LF :: match outcome (process_query rt caps query)
                                     asked with
                             | inr response => response
                             | inl e => str "Error: " ++ exn_str rt e
                             end)]
     end)
  /\ (forall turns (st : state W),
        exists ended, outcome (chat_loop rt caps turns) st = inr ended).
Proof.
  split.
  - intros st.
    destruct (console_input caps (LF :: str "Query: ") (world st))
      as [[e|line] w1] eqn:Hinput.
    + assert (Hbody : runs_to (chat_loop_body rt caps) st (inr true) w1
                        ([EvInput (LF :: str "Query: ") (inl e)]
                         ++ [EvPrint (LF :: str "Error: " ++ exn_str rt e)]
                         ++ [])).
      { unfold chat_loop_body. eapply (runs_to_try_caught W).
        - apply runs_to_bind_fail. apply runs_to_perform. exact Hinput.
        - eapply runs_to_bind; [apply runs_to_print | apply runs_to_ret]. }
      apply runs_to_outcome in Hbody. destruct Hbody as [-> ->]. auto.
    + cbv zeta.
      destruct (text_eqb (str_lower rt (str_strip rt line)) (str "quit"))
        eqn:Hquit.
      * assert (Hbody : runs_to (chat_loop_body rt caps) st (inr false) w1
                          ([EvInput (LF :: str "Query: ") (inr line)]
                           ++ [])).
        { unfold chat_loop_body. apply runs_to_try_ok.
          eapply runs_to_bind; [apply runs_to_perform; exact Hinput|].
          cbn [world log]. rewrite Hquit. apply runs_to_ret. }
        apply runs_to_outcome in Hbody. destruct Hbody as [-> ->]. auto.
      * destruct (process_query_sound rt W caps (str_strip rt line)
                    {| world := w1;
                       log := log st
                              ++ [EvInput (LF :: str "Query: ")
                                    (inr line)] |})
          as (r & w' & evs & Hrun & _).
        destruct (runs_to_outcome W _ _ _ _ _ Hrun) as [Hr Hev].
        rewrite Hr, Hev. destruct r as [e|response].
        -- pose proof (chat_loop_body_reports rt W caps st line w1 e w' evs
                         Hinput Hquit Hrun) as Hbody.
           apply runs_to_outcome in Hbody. destruct Hbody as [-> ->].
           split; [reflexivity|].
           rewrite <- app_assoc. reflexivity.
        -- assert (Hbody : runs_to (chat_loop_body rt caps) st (inr true) w'
                             ([EvInput (LF :: str "Query: ") (inr line)]
                              ++ evs ++ [EvPrint (LF :: response)] ++ [])).
           { unfold chat_loop_body. apply runs_to_try_ok.
             eapply runs_to_bind; [apply runs_to_perform; exact Hinput|].
             cbn [world log]. rewrite Hquit.
             eapply runs_to_bind; [exact Hrun|].
             eapply runs_to_bind; [apply runs_to_print | apply runs_to_ret]. }
           apply runs_to_outcome in Hbody. destruct Hbody as [-> ->]. auto.
  - intros turns st. destruct (chat_loop_runs rt W caps turns st)
      as (b & w' & evs & Hrun).
    exists b. now apply runs_to_outcome in Hrun.
Qed.

(** X10.  A line that is [quit] once stripped and lowered ends the loop
    at once: the turn reads the line and does nothing else (no session
    call, no model call, nothing printed), and the loop stops there. *)
Theorem quit_ends_the_loop (rt : Runtime) (W : Type)
    (caps : Capabilities W) :
  forall (st : state W) line w1,
    console_input caps (LF :: str "Query: ") (world st) = (inr line, w1) ->
    text_eqb (str_lower rt (str_strip rt line)) (str "quit") = true ->
    outcome (chat_loop_body rt caps) st = inr false
    /\ events (chat_loop_body rt caps) st
       = [EvInput (LF :: str "Query: ") (inr line)]
    /\ forall turns,
         outcome (chat_loop_turns rt caps (S turns)) st = inr true
         /\ events (chat_loop_turns rt caps (S turns)) st
            = [EvInput (LF :: str "Query: ") (inr line)].
Proof.
  intros st line w1 Hinput Hquit.
  assert (Hbody : runs_to (chat_loop_body rt caps) st (inr false) w1
                    ([EvInput (LF :: str "Query: ") (inr line)] ++ [])).
  { unfold chat_loop_body. apply runs_to_try_ok.
    eapply runs_to_bind; [apply runs_to_perform; exact Hinput|].
    cbn [world log]. rewrite Hquit. apply runs_to_ret. }
  split; [|split].
  - now apply runs_to_outcome in Hbody.
  - now apply runs_to_outcome in Hbody.
  - intros turns.
    assert (Hloop : runs_to (chat_loop_turns rt caps (S turns)) st
                      (inr true) w1
                      (([EvInput (LF :: str "Query: ") (inr line)] ++ [])
                       ++ [])).
    { cbn [chat_loop_turns]. eapply runs_to_bind; [exact Hbody|].
      apply runs_to_ret. }
    now apply runs_to_outcome in Hloop.
Qed.

Lemma quit_ends_the_loop_witness :
  outcome (chat_loop_body ref_runtime (scripted ask_and_quit_script))
    {| world := (1, 1); log := [] |}
  = inr false
  /\ events (chat_loop_body ref_runtime (scripted ask_and_quit_script))
       {| world := (1, 1); log := [] |}
     = [EvInput (LF :: str "Query: ") (inr (str "  QUIT "))].
Proof.
  destruct (quit_ends_the_loop ref_runtime scripted_world
              (scripted ask_and_quit_script)
              {| world := (1, 1); log := [] |} (str "  QUIT ") (1, 2)
              eq_refl eq_refl) as (Hout & Hev & _).
  split; [exact Hout | exact Hev].
Defined.

(** X11.  With a console whose every read raises (a closed standard
    input), the loop never ends by itself: each turn reads, fails and
    prints the error, so after any number of turns the loop is still
    going, it has printed one error line per turn, and it has never
    asked the session or the model. *)
Theorem closed_console_never_ends_the_loop (rt : Runtime) (W : Type)
    (caps : Capabilities W) :
  (forall prompt w, exists e w', console_input caps prompt w = (inl e, w')) ->
  forall turns (st : state W),
    outcome (chat_loop_turns rt caps turns) st = inr false
    /\ length (events (chat_loop_turns rt caps turns) st) = 2 * turns
    /\ Forall (fun ev =>
                 match ev with
                 | EvInput _ (inl _) | EvPrint _ => True
                 | _ => False
                 end) (events (chat_loop_turns rt caps turns) st).
Proof.
  intros Hclosed turns.
  assert (Hrun : forall st : state W,
             exists w' evs,
               runs_to (chat_loop_turns rt caps turns) st (inr false) w' evs
               /\ length evs = 2 * turns
               /\ Forall (fun ev =>
                            match ev with
                            | EvInput _ (inl _) | EvPrint _ => True
                            | _ => False
                            end) evs).
  { induction turns as [|turns IH]; intros st.
    - exists (world st), []. split; [apply runs_to_ret|]. split;
        [reflexivity | constructor].
    - destruct (Hclosed (LF :: str "Query: ") (world st))
        as (e & w1 & Hinput).
      destruct (IH {| world := w1;
                      log := log st
                             ++ [EvInput (LF :: str "Query: ") (inl e)]
                             ++ [EvPrint (LF :: str "Error: "
                                          ++ exn_str rt e)] ++ [] |})
        as (w' & evs & Hrest & Hlen & Hall).
      eexists w', _. split; [|split].
      + cbn [chat_loop_turns].
        eapply runs_to_bind;
          [unfold chat_loop_body; eapply (runs_to_try_caught W);
           [apply runs_to_bind_fail; apply runs_to_perform; exact Hinput
           |eapply runs_to_bind; [apply runs_to_print | apply runs_to_ret]]
          |exact Hrest].
      + rewrite !length_app, Hlen. cbn [length]. lia.
      + repeat (apply Forall_app; split); try exact Hall;
          repeat constructor. }
  intros st. destruct (Hrun st) as (w' & evs & Hr & Hlen & Hall).
  apply runs_to_outcome in Hr. destruct Hr as [-> ->]. auto.
Qed.

Lemma closed_console_never_ends_the_loop_witness :
  outcome (chat_loop_turns ref_runtime closed_console 3) start = inr false
  /\ length (events (chat_loop_turns ref_runtime closed_console 3) start)
     = 6.
Proof.
  destruct (closed_console_never_ends_the_loop ref_runtime scripted_world
              closed_console
              (fun prompt w =>
                 ex_intro _ (Raised (str "EOF when reading a line"))
                   (ex_intro _ w eq_refl))
              3 start) as (Hout & Hlen & _).
  split; [exact Hout | exact Hlen].
Defined.

(** X12.  A turn whose query is answered prints the transcript after a
    line feed and goes on: the turn reads the line, runs [process_query]
    on the stripped line, adds one printed line (the line feed and the
    transcript) and asks for the next turn. *)
Theorem answered_turn_prints_the_transcript (rt : Runtime) (W : Type)
    (caps : Capabilities W) :
  forall (st0 : state W) line w1 response,
    console_input caps (LF :: str "Query: ") (world st0) = (inr line, w1) ->
    text_eqb (str_lower rt (str_strip rt line)) (str "quit") = false ->
    let st :=
      {| world := w1;
         log := log st0 ++ [EvInput (LF :: str "Query: ") (inr line)] |} in
    outcome (process_query rt caps (str_strip rt line)) st = inr response ->
    outcome (chat_loop_body rt caps) st0 = inr true
    /\ events (chat_loop_body rt caps) st0
       = EvInput (LF :: str "Query: ") (inr line)
         :: events (process_query rt caps (str_strip rt line)) st
         ++ [EvPrint (LF :: response)].
Proof.
  intros st0 line w1 response Hinput Hquit st Hout.
  destruct (process_query_sound rt W caps (str_strip rt line) st)
    as (r & w' & evs & Hrun & _).
  destruct (runs_to_outcome W _ _ _ _ _ Hrun) as [Hr Hev].
  rewrite Hout in Hr. subst r. rewrite Hev.
  assert (Hbody : runs_to (chat_loop_body rt caps) st0 (inr true) w'
                    ([EvInput (LF :: str "Query: ") (inr line)]
                     ++ evs ++ [EvPrint (LF :: response)] ++ [])).
  { unfold chat_loop_body. apply runs_to_try_ok.
    eapply runs_to_bind; [apply runs_to_perform; exact Hinput|].
    cbn [world log]. rewrite Hquit.
    eapply runs_to_bind; [exact Hrun|].
    eapply runs_to_bind; [apply runs_to_print | apply runs_to_ret]. }
  apply runs_to_outcome in Hbody. destruct Hbody as [-> ->]. auto.
Qed.

Lemma answered_turn_prints_the_transcript_witness :
  outcome (chat_loop_body ref_runtime (scripted ask_and_quit_script)) start
  = inr true.
Proof.
  exact (proj1 (answered_turn_prints_the_transcript ref_runtime
                  scripted_world (scripted ask_and_quit_script) start
                  (str "hello") (0, 1) (str "Hello! How can I help?")
                  eq_refl eq_refl eq_refl)).
Defined.

(* ================================================================== *)
(** * The life cycle *)

Section LifeFacts.
Variable rt : Runtime.
Variable W : Type.
Variable caps : Capabilities W.
Variable life : Lifecycle W.

Ltac settle :=
  cbn [world log c_world c_log c_exit_stack c_session map app fst snd].

Ltac unfold_life :=
  unfold connect_to_server, cleanup, lbind, ltry, lprint, lraise, lret,
    embed, print, enter_async_context, set_session, initialize, aclose,
    list_tools, perform, new_client;
  settle.

(** Case analysis on the next capability call of the goal. *)
Ltac next_call :=
  match goal with
  | |- context [stdio_client life ?p ?w] =>
      destruct (stdio_client life p w) as [[?e|[]] ?w]
  | |- context [client_session life ?w] =>
      destruct (client_session life w) as [[?e|[]] ?w]
  | |- context [session_initialize life ?w] =>
      destruct (session_initialize life w) as [[?e|[]] ?w]
  | |- context [session_list_tools caps ?w] =>
      destruct (session_list_tools caps w) as [[?e|?tools] ?w]
  | |- context [exit_stack_aclose life ?s ?w] =>
      destruct (exit_stack_aclose life s w) as [[?e|[]] ?w]
  end; settle.

Lemma life_events_app {A} (m : L W A) (c : client W) r w' stack session
    evs :
  m c = (r, {| c_world := w'; c_log := c_log c ++ evs;
               c_exit_stack := stack; c_session := session |}) ->
  life_events m c = evs.
Proof.
  unfold life_events. intros ->. cbn [snd c_log]. apply skipn_length_app.
Qed.

Lemma no_close_in_base (evs : list event) :
  existsb is_close (map LBase evs) = false.
Proof. induction evs as [|ev evs IH]; [reflexivity | exact IH]. Qed.

(** [connect_to_server] closes nothing and reads nothing from the
    console. *)
Lemma connect_to_server_log (path : text) (w : W) :
  exists evs,
    c_log (snd (connect_to_server rt caps life path (new_client w))) = evs
    /\ existsb is_close evs = false
    /\ Forall (fun ev =>
                 match ev with
                 | LBase (EvInput _ _) => False
                 | _ => True
                 end) evs.
Proof.
  unfold_life.
  destruct (negb (ends_with (str ".py") path || ends_with (str ".js") path));
    settle;
    [|repeat (next_call;
              try (eexists; split; [reflexivity|]; split; [reflexivity|];
                   repeat constructor))].
  eexists. split; [reflexivity|]. split; [reflexivity|].
  repeat constructor.
Qed.

Lemma cleanup_runs (c : client W) :
  exists r w',
    exit_stack_aclose life (c_exit_stack c) (c_world c) = (r, w')
    /\ cleanup rt life c
       = (inr tt,
          {| c_world := w';
             c_log :=
               c_log c
               ++ [printed (LF :: str "Cleaning up and disconnecting from server...");
                   LClose (c_exit_stack c) r;
                   printed
                     match r with
                     | inr _ =>
                         check_mark
                         ++ str " Successfully disconnected from server"
                     | inl e =>
                         cross_mark ++ str " Error during cleanup: "
                         ++ exn_str rt e
                     end];
             c_exit_stack := [];
             c_session := c_session c |}).
Proof.
  unfold_life.
  destruct (exit_stack_aclose life (c_exit_stack c) (c_world c))
    as [[e|[]] w']; settle; eexists _, _;
    (split; [reflexivity|]); rewrite <- ?app_assoc; reflexivity.
Qed.

(** The exit stack and the session are in step: the stack is empty, or
    holds the transport, or the session above it, and only then is the
    session set. *)
Lemma connect_to_server_states (path : text) (w : W) :
  let r := connect_to_server rt caps life path (new_client w) in
  ((c_exit_stack (snd r) = [] /\ c_session (snd r) = false)
   \/ (c_exit_stack (snd r) = [Transport] /\ c_session (snd r) = false)
   \/ (c_exit_stack (snd r) = [Session; Transport]
       /\ c_session (snd r) = true))
  /\ (forall u, fst r = inr u ->
        c_exit_stack (snd r) = [Session; Transport]
        /\ c_session (snd r) = true).
Proof.
  unfold_life.
  destruct (negb (ends_with (str ".py") path || ends_with (str ".js") path));
    settle;
    [|repeat (next_call;
              try solve [split;
                         [auto 6 | intros u Hu; try discriminate; auto]])].
  split; [auto | intros u Hu; discriminate].
Qed.

Lemma connect_to_server_failure (path : text) (w : W) e :
  ends_with (str ".py") path || ends_with (str ".js") path = true ->
  fst (connect_to_server rt caps life path (new_client w)) = inl e ->
  exists before step,
    c_log (snd (connect_to_server rt caps life path (new_client w)))
    = before
      ++ [step;
          printed (LF :: cross_mark ++ str " Failed to connect to server: "
                   ++ exn_str rt e)]
    /\ step_failed_with e step
    /\ forallb went_well before = true
    /\ c_exit_stack (snd (connect_to_server rt caps life path (new_client w)))
       = entered_before step.
Proof.
  intros Hext. unfold_life. rewrite Hext. cbn [negb]. settle.
  repeat (next_call;
          try solve [intros Hfail; inversion Hfail; subst;
                     match goal with
                     | |- exists b s, ?l = _ /\ _ =>
                         exists (removelast (removelast l)),
                                (nth (length l - 2) l (printed []))
                     end;
                     repeat split; exact eq_refl]);
    try discriminate.
Qed.

Lemma connect_to_server_rejects (path : text) (c : client W) :
  ends_with (str ".py") path || ends_with (str ".js") path = false ->
  connect_to_server rt caps life path c
  = (inl (Raised (str "Server script must be a .py or .js file")),
     {| c_world := c_world c;
        c_log :=
          c_log c
          ++ [printed (LF :: str "Attempting to connect to server: "
                       ++ path)];
        c_exit_stack := c_exit_stack c;
        c_session := c_session c |}).
Proof. intros Hext. unfold_life. rewrite Hext. reflexivity. Qed.

Lemma connect_to_server_success (path : text) (w : W) u :
  fst (connect_to_server rt caps life path (new_client w)) = inr u ->
  exists w1 w2 w3 tools w4,
    stdio_client life (server_params_for path) w = (inr tt, w1)
    /\ client_session life w1 = (inr tt, w2)
    /\ session_initialize life w2 = (inr tt, w3)
    /\ session_list_tools caps w3 = (inr tools, w4)
    /\ snd (connect_to_server rt caps life path (new_client w))
       = {| c_world := w4;
            c_log := connected_log rt path tools;
            c_exit_stack := [Session; Transport];
            c_session := true |}.
Proof.
  unfold connected_log, server_params_for. unfold_life.
  cbn [sp_command].
  destruct (negb (ends_with (str ".py") path || ends_with (str ".js") path));
    settle; [discriminate|].
  destruct (stdio_client life _ w) as [[e|[]] w1] eqn:Hspawn; settle;
    [discriminate|].
  destruct (client_session life w1) as [[e|[]] w2] eqn:Hsession; settle;
    [discriminate|].
  destruct (session_initialize life w2) as [[e|[]] w3] eqn:Hinit; settle;
    [discriminate|].
  destruct (session_list_tools caps w3) as [[e|tools] w4] eqn:Htools; settle;
    [discriminate|].
  intros _. exists w1, w2, w3, tools, w4. auto 6.
Qed.

Lemma finally_cleanup_runs (ended : main_outcome) (c : client W) :
  exists r w',
    exit_stack_aclose life (c_exit_stack c) (c_world c) = (r, w')
    /\ finally_cleanup rt life ended c
       = (ended,
          {| c_world := w';
             c_log := c_log c ++ cleanup_log rt (c_exit_stack c) r;
             c_exit_stack := [];
             c_session := c_session c |}).
Proof.
  destruct (cleanup_runs c) as (r & w' & Hclose & Hrun).
  exists r, w'. split; [exact Hclose|].
  unfold finally_cleanup. rewrite Hrun. reflexivity.
Qed.

(** A turn that breaks the loop has read a line that is [quit]. *)
Lemma chat_loop_body_break (st st' : state W) :
  chat_loop_body rt caps st = (inr false, st') ->
  exists line,
    log st' = log st ++ [EvInput (LF :: str "Query: ") (inr line)]
    /\ text_eqb (str_lower rt (str_strip rt line)) (str "quit") = true.
Proof.
  unfold chat_loop_body, try_except, bind, input, perform, ret, print.
  destruct (console_input caps (LF :: str "Query: ") (world st))
    as [[e|line] w1]; cbn [world log]; [discriminate|].
  destruct (text_eqb (str_lower rt (str_strip rt line)) (str "quit"))
    eqn:Hquit.
  - intros Heq. inversion Heq; subst. cbn [log]. eauto.
  - destruct (process_query rt caps (str_strip rt line) _) as [[e|response] st2];
      discriminate.
Qed.

Lemma chat_loop_turns_break (turns : nat) :
  forall (st : state W) w' evs,
    runs_to (chat_loop_turns rt caps turns) st (inr true) w' evs ->
    exists before line,
      evs = before ++ [EvInput (LF :: str "Query: ") (inr line)]
      /\ text_eqb (str_lower rt (str_strip rt line)) (str "quit") = true.
Proof.
  induction turns as [|turns IH]; intros st w' evs Hrun.
  - unfold runs_to in Hrun. cbn in Hrun. discriminate.
  - cbn [chat_loop_turns] in Hrun. unfold runs_to, bind in Hrun.
    destruct (chat_loop_body_runs rt W caps st) as (continue & w1 & evs1 & Hbody).
    pose proof Hbody as Hbody'. unfold runs_to in Hbody'.
    rewrite Hbody' in Hrun. destruct continue.
    + destruct (chat_loop_turns_runs rt W caps turns
                  {| world := w1; log := log st ++ evs1 |})
        as (ended & w2 & evs2 & Hrest).
      pose proof Hrest as Hrest'. unfold runs_to in Hrest'.
      rewrite Hrest' in Hrun. cbn [log] in Hrun.
      inversion Hrun as [[Hended Hw Hlog]]. subst ended.
      rewrite <- app_assoc in Hlog. apply app_inv_head in Hlog. subst evs.
      destruct (IH _ _ _ Hrest) as (before & line & -> & Hquit).
      exists (evs1 ++ before), line. rewrite app_assoc. auto.
    + unfold ret in Hrun. inversion Hrun as [[Hw Hlog]].
      apply app_inv_head in Hlog. subst evs.
      destruct (chat_loop_body_break _ _ Hbody') as (line & Hlog & Hquit).
      cbn [log] in Hlog. apply app_inv_head in Hlog. subst evs1.
      exists [], line. auto.
Qed.

Lemma chat_loop_break (turns : nat) (st : state W) w' evs :
  runs_to (chat_loop rt caps turns) st (inr true) w' evs ->
  exists before line,
    evs = before ++ [EvInput (LF :: str "Query: ") (inr line)]
    /\ text_eqb (str_lower rt (str_strip rt line)) (str "quit") = true.
Proof.
  unfold chat_loop. intros Hrun. unfold runs_to, bind, print in Hrun.
  cbn [world log] in Hrun.
  destruct (chat_loop_turns_runs rt W caps turns
              {| world := world st;
                 log := (log st ++ [EvPrint (LF :: str "MCP Client Started!")])
                        ++ [EvPrint
                              (str "Type your queries or 'quit' to exit.")] |})
    as (ended & w2 & evs2 & Hrest).
  pose proof Hrest as Hrest'. unfold runs_to in Hrest'.
  rewrite Hrest' in Hrun. cbn [log] in Hrun.
  inversion Hrun as [[Hended Hw Hlog]]. subst ended.
  rewrite <- !app_assoc in Hlog. apply app_inv_head in Hlog. subst evs.
  destruct (chat_loop_turns_break _ _ _ _ Hrest) as (before & line & -> & Hq).
  exists (EvPrint (LF :: str "MCP Client Started!")
          :: EvPrint (str "Type your queries or 'quit' to exit.") :: before),
         line.
  auto.
Qed.

(** How [main] goes once it has its argument: the connection fails and
    the cleanup follows, or the loop runs, without raising, and the
    cleanup follows when the loop has ended. *)
Lemma main_runs (argv : list text) (turns : nat) (w : W) :
  2 <= length argv ->
  let connected :=
    connect_to_server rt caps life (nth 1 argv []) (new_client w) in
  (exists e,
     fst connected = inl e
     /\ main rt caps life argv turns w
        = finally_cleanup rt life (Raises e) (snd connected))
  \/ (fst connected = inr tt
      /\ exists ended w2 evs,
           runs_to (chat_loop rt caps turns)
             {| world := c_world (snd connected); log := [] |}
             (inr ended) w2 evs
           /\ let looped :=
                {| c_world := w2;
                   c_log := c_log (snd connected) ++ map LBase evs;
                   c_exit_stack := c_exit_stack (snd connected);
                   c_session := c_session (snd connected) |} in
              main rt caps life argv turns w
              = if ended : bool then finally_cleanup rt life Returns looped
                else (StillLooping, looped)).
Proof.
  intros Hlen connected. unfold main.
  replace (length argv <? 2) with false
    by (symmetry; apply Nat.ltb_ge; exact Hlen).
  fold connected. destruct connected as [[e|[]] c1]; cbn [fst snd].
  - left. exists e. auto.
  - right. split; [reflexivity|].
    destruct (chat_loop_runs rt W caps turns
                {| world := c_world c1; log := [] |})
      as (ended & w2 & evs & Hrun).
    exists ended, w2, evs. split; [exact Hrun|].
    unfold embed. unfold runs_to in Hrun. rewrite Hrun.
    cbn [world log app]. destruct ended; reflexivity.
Qed.

Lemma no_read_in_connect (path : text) (w : W) :
  existsb is_console_read
    (c_log (snd (connect_to_server rt caps life path (new_client w))))
  = false.
Proof.
  destruct (connect_to_server_log path w) as (evs & -> & _ & Hall).
  induction Hall as [|ev evs Hev _ IH]; [reflexivity|].
  cbn [existsb]. rewrite IH.
  destruct ev as [[]| | | |]; try reflexivity. destruct Hev.
Qed.
Lemma py_or_js (path : text) :
  ends_with (str ".js") path = true -> ends_with (str ".py") path = false.
Proof.
  unfold ends_with.
  change (rev (str ".js")) with [115; 106; 46]%N.
  change (rev (str ".py")) with [121; 112; 46]%N.
  destruct (rev path) as [|c t]; [discriminate|].
  cbn [starts_with]. destruct (N.eqb_spec c 115) as [->|]; [|discriminate].
  reflexivity.
Qed.

Lemma connect_to_server_starts (path : text) (w : W) :
  ends_with (str ".py") path || ends_with (str ".js") path = true ->
  exists rest,
    c_log (snd (connect_to_server rt caps life path (new_client w)))
    = printed (LF :: str "Attempting to connect to server: " ++ path)
      :: printed (str "Starting " ++ sp_command (server_params_for path)
                  ++ str " server...")
      :: LSpawn (server_params_for path)
           (fst (stdio_client life (server_params_for path) w))
      :: rest.
Proof.
  intros Hext. unfold server_params_for. unfold_life. cbn [sp_command].
  rewrite Hext. cbn [negb]. settle.
  repeat (next_call; try solve [eexists; reflexivity]).
Qed.
End LifeFacts.

(** X13.  A server script that is neither a [.py] nor a [.js] file is
    rejected before anything starts: [connect_to_server] prints its first
    line and raises the [ValueError]; no capability is called, nothing
    is entered on the exit stack, the session is not set, and the
    failure line of the [try] is not printed. *)
Theorem script_of_another_kind_is_rejected (rt : Runtime) (W : Type)
    (caps : Capabilities W) (life : Lifecycle W) :
  forall (path : text) (c : client W),
    ends_with (str ".py") path = false ->
    ends_with (str ".js") path = false ->
    connect_to_server rt caps life path c
    = (inl (Raised (str "Server script must be a .py or .js file")),
       {| c_world := c_world c;
          c_log :=
            c_log c
            ++ [printed (LF :: str "Attempting to connect to server: "
                         ++ path)];
          c_exit_stack := c_exit_stack c;
          c_session := c_session c |}).
Proof.
  intros path c Hpy Hjs. apply connect_to_server_rejects.
  rewrite Hpy, Hjs. reflexivity.
Qed.

Lemma script_of_another_kind_is_rejected_witness :
  fst (connect_to_server ref_runtime (scripted plain_answer_script)
         (scripted_life all_well) (str "server.PY") (new_client (0, 0)))
  = inl (Raised (str "Server script must be a .py or .js file")).
Proof.
  exact (f_equal fst
           (script_of_another_kind_is_rejected ref_runtime scripted_world
              (scripted plain_answer_script) (scripted_life all_well)
              (str "server.PY") (new_client (0, 0)) eq_refl eq_refl)).
Defined.

(** X14.  The server is started by the extension of its script: a [.py]
    script with [python], a [.js] script with [node], in both cases with
    the script path as the only argument and no environment; the start
    of the server is the first thing asked of the world, after the two
    printed lines. *)
Theorem server_is_started_by_its_extension (rt : Runtime) (W : Type)
    (caps : Capabilities W) (life : Lifecycle W) :
  forall (path : text) (w : W) (command : text),
    (ends_with (str ".py") path = true /\ command = str "python")
    \/ (ends_with (str ".js") path = true /\ command = str "node") ->
    let params :=
      {| sp_command := command; sp_args := [path]; sp_env := None |} in
    exists rest,
      c_log (snd (connect_to_server rt caps life path (new_client w)))
      = printed (LF :: str "Attempting to connect to server: " ++ path)
        :: printed (str "Starting " ++ command ++ str " server...")
        :: LSpawn params (fst (stdio_client life params w))
        :: rest.
Proof.
  intros path w command Hkind params.
  assert (Hpy : ends_with (str ".py") path || ends_with (str ".js") path
                = true
                /\ params = server_params_for path).
  { unfold params, server_params_for.
    destruct Hkind as [[Hpy ->]|[Hjs ->]].
    - rewrite Hpy. auto.
    - rewrite (py_or_js path Hjs), Hjs. auto. }
  destruct Hpy as [Hext Hparams].
  destruct (connect_to_server_starts rt W caps life path w Hext)
    as (rest & Hlog).
  exists rest. rewrite Hlog, Hparams.
  replace command with (sp_command params) by reflexivity.
  rewrite Hparams. reflexivity.
Qed.

Lemma server_is_started_by_its_extension_witness :
  exists rest,
    c_log (snd (connect_to_server ref_runtime (scripted plain_answer_script)
                  (scripted_life session_breaks) (str "tools/server.js")
                  (new_client (0, 0))))
    = printed (LF :: str "Attempting to connect to server: "
               ++ str "tools/server.js")
      :: printed (str "Starting " ++ str "node" ++ str " server...")
      :: LSpawn {| sp_command := str "node";
                   sp_args := [str "tools/server.js"];
                   sp_env := None |} (inr tt)
      :: rest.
Proof.
  exact (server_is_started_by_its_extension ref_runtime scripted_world
           (scripted plain_answer_script) (scripted_life session_breaks)
           (str "tools/server.js") (0, 0) (str "node")
           (or_intror (conj eq_refl eq_refl))).
Defined.

(** X15.  A connection that returns has gone through every step: the
    server was started with the parameters of the script, the session
    was opened and initialized and the tools were listed, each in the
    world the step before left, and none raised.  The log is the nine
    lines of a good connection, the exit stack holds the session above
    the transport, and the session is set. *)
Theorem connection_returns_after_every_step (rt : Runtime) (W : Type)
    (caps : Capabilities W) (life : Lifecycle W) :
  forall (path : text) (w : W) u,
    fst (connect_to_server rt caps life path (new_client w)) = inr u ->
    exists w1 w2 w3 tools w4,
      stdio_client life (server_params_for path) w = (inr tt, w1)
      /\ client_session life w1 = (inr tt, w2)
      /\ session_initialize life w2 = (inr tt, w3)
      /\ session_list_tools caps w3 = (inr tools, w4)
      /\ snd (connect_to_server rt caps life path (new_client w))
         = {| c_world := w4;
              c_log := connected_log rt path tools;
              c_exit_stack := [Session; Transport];
              c_session := true |}.
Proof.
  intros path w u Hok.
  exact (connect_to_server_success rt W caps life path w u Hok).
Qed.

Lemma connection_returns_after_every_step_witness :
  exists w1 w2 w3 tools w4,
    stdio_client (scripted_life all_well)
      (server_params_for (str "server.py")) (0, 0) = (inr tt, w1)
    /\ client_session (scripted_life all_well) w1 = (inr tt, w2)
    /\ session_initialize (scripted_life all_well) w2 = (inr tt, w3)
    /\ session_list_tools (scripted plain_answer_script) w3
       = (inr tools, w4)
    /\ snd (connect_to_server ref_runtime (scripted plain_answer_script)
              (scripted_life all_well) (str "server.py") (new_client (0, 0)))
       = {| c_world := w4;
            c_log := connected_log ref_runtime (str "server.py") tools;
            c_exit_stack := [Session; Transport];
            c_session := true |}.
Proof.
  exact (connection_returns_after_every_step ref_runtime scripted_world
           (scripted plain_answer_script) (scripted_life all_well)
           (str "server.py") (0, 0) tt eq_refl).
Defined.

(** X16.  A connection that fails inside the [try] is reported and
    raised again: the log ends with the step that raised followed by the
    failure line with the text of that very exception, every step before
    it went well, and nothing is closed; the contexts entered before the
    failing step stay on the exit stack. *)
Theorem failed_connection_is_reported_and_raised (rt : Runtime) (W : Type)
    (caps : Capabilities W) (life : Lifecycle W) :
  forall (path : text) (w : W) e,
    ends_with (str ".py") path || ends_with (str ".js") path = true ->
    fst (connect_to_server rt caps life path (new_client w)) = inl e ->
    exists before step,
      c_log (snd (connect_to_server rt caps life path (new_client w)))
      = before
        ++ [step;
            printed (LF :: cross_mark ++ str " Failed to connect to server: "
                     ++ exn_str rt e)]
      /\ step_failed_with e step
      /\ forallb went_well before = true
      /\ c_exit_stack
           (snd (connect_to_server rt caps life path (new_client w)))
         = entered_before step
      /\ existsb is_close
           (c_log (snd (connect_to_server rt caps life path (new_client w))))
         = false.
Proof.
  intros path w e Hext Hfail.
  destruct (connect_to_server_failure rt W caps life path w e Hext Hfail)
    as (before & step & Hlog & Hstep & Hwell & Hstack).
  exists before, step. repeat split; try assumption.
  destruct (connect_to_server_log rt W caps life path w)
    as (evs & -> & Hnone & _).
  exact Hnone.
Qed.

Lemma failed_connection_is_reported_and_raised_witness :
  exists before step,
    c_log (snd (connect_to_server ref_runtime (scripted plain_answer_script)
                  (scripted_life session_breaks) (str "server.py")
                  (new_client (0, 0))))
    = before
      ++ [step;
          printed (LF :: cross_mark ++ str " Failed to connect to server: "
                   ++ str "cannot open the session")]
    /\ step_failed_with (Raised (str "cannot open the session")) step
    /\ forallb went_well before = true
    /\ c_exit_stack
         (snd (connect_to_server ref_runtime (scripted plain_answer_script)
                 (scripted_life session_breaks) (str "server.py")
                 (new_client (0, 0))))
       = entered_before step
    /\ existsb is_close
         (c_log (snd (connect_to_server ref_runtime
                        (scripted plain_answer_script)
                        (scripted_life session_breaks) (str "server.py")
                        (new_client (0, 0)))))
       = false.
Proof.
  exact (failed_connection_is_reported_and_raised ref_runtime scripted_world
           (scripted plain_answer_script) (scripted_life session_breaks)
           (str "server.py") (0, 0) (Raised (str "cannot open the session"))
           eq_refl eq_refl).
Defined.

(** X17.  An exception that the closing of the exit stack raises does
    not leave [cleanup]; the exceptions meant are the ones of class
    [Exception], which are the ones the model has (a cancellation or an
    interrupt is not covered).  [cleanup] prints its first line, closes
    the exit stack once, with the contexts that are on it, and prints
    the success line when the closing returned, and the error line with
    the text of the exception when it raised; in both cases [cleanup]
    returns, and the session stays set. *)
Theorem cleanup_reports_a_failed_closing (rt : Runtime) (W : Type)
    (life : Lifecycle W) :
  forall c : client W,
    fst (cleanup rt life c) = inr tt
    /\ life_events (cleanup rt life) c
       = [printed (LF :: str "Cleaning up and disconnecting from server...");
          LClose (c_exit_stack c)
            (fst (exit_stack_aclose life (c_exit_stack c) (c_world c)));
          printed
            match fst (exit_stack_aclose life (c_exit_stack c) (c_world c))
            with
            | inr _ => check_mark
                       ++ str " Successfully disconnected from server"
            | inl e => cross_mark ++ str " Error during cleanup: "
                       ++ exn_str rt e
            end]
    /\ c_world (snd (cleanup rt life c))
       = snd (exit_stack_aclose life (c_exit_stack c) (c_world c))
    /\ c_session (snd (cleanup rt life c)) = c_session c.
Proof.
  intros c. destruct (cleanup_runs rt W life c) as (r & w' & Hclose & Hrun).
  rewrite Hclose. cbn [fst snd].
  repeat split; try (rewrite Hrun; reflexivity).
  exact (life_events_app W _ c _ _ _ _ _ Hrun).
Qed.

(** X18.  [main] exits exactly when the script argument is missing, and
    then with code 1 after printing the usage line only: no client is
    connected, no capability is called and no cleanup runs. *)
Theorem main_exits_only_without_argument (rt : Runtime) (W : Type)
    (caps : Capabilities W) (life : Lifecycle W) :
  forall (argv : list text) (turns : nat) (w : W),
    (length argv < 2 ->
     main rt caps life argv turns w
     = (Exits 1,
        {| c_world := w;
           c_log :=
             [printed (str "Usage: python client.py <path_to_server_script>")];
           c_exit_stack := [];
           c_session := false |}))
    /\ (forall code,
          fst (main rt caps life argv turns w) = Exits code ->
          length argv < 2).
Proof.
  intros argv turns w. split.
  - intros Hlen. unfold main.
    replace (length argv <? 2) with true
      by (symmetry; apply Nat.ltb_lt; exact Hlen).
    reflexivity.
  - intros code Hexit.
    destruct (Nat.lt_ge_cases (length argv) 2) as [Hlt|Hge]; [exact Hlt|].
    exfalso.
    destruct (main_runs rt W caps life argv turns w Hge)
      as [(e & _ & Hmain)|(_ & ended & w2 & evs & _ & Hmain)];
      cbv zeta in Hmain; rewrite Hmain in Hexit.
    + destruct (finally_cleanup_runs rt W life (Raises e)
                  (snd (connect_to_server rt caps life (nth 1 argv [])
                          (new_client w))))
        as (r & w' & _ & Hrun).
      rewrite Hrun in Hexit. discriminate.
    + destruct ended; [|discriminate].
      match type of Hexit with
      | fst (finally_cleanup _ _ _ ?c) = _ =>
          destruct (finally_cleanup_runs rt W life Returns c)
            as (r & w' & _ & Hrun)
      end.
      rewrite Hrun in Hexit. discriminate.
Qed.

Lemma main_exits_only_without_argument_witness :
  fst (main ref_runtime (scripted plain_answer_script)
         (scripted_life all_well) [str "client.py"] 3 (0, 0))
  = Exits 1.
Proof.
  exact (f_equal fst
           (proj1 (main_exits_only_without_argument ref_runtime
                     scripted_world (scripted plain_answer_script)
                     (scripted_life all_well) [str "client.py"] 3 (0, 0))
              (le_n 2))).
Defined.

(** X19.  Once [main] has its argument, however it ends (the connection
    failed, or the user quit), the cleanup is the last thing it does:
    the log ends with the three lines of the cleanup, the exit stack is
    closed exactly once, with the contexts the connection left on it,
    and it is empty at the end. *)
Theorem main_closes_the_exit_stack_last (rt : Runtime) (W : Type)
    (caps : Capabilities W) (life : Lifecycle W) :
  forall (argv : list text) (turns : nat) (w : W),
    2 <= length argv ->
    fst (main rt caps life argv turns w) <> StillLooping ->
    exists before r,
      c_log (snd (main rt caps life argv turns w))
      = before
        ++ cleanup_log rt
             (c_exit_stack
                (snd (connect_to_server rt caps life (nth 1 argv [])
                        (new_client w)))) r
      /\ existsb is_close before = false
      /\ c_exit_stack (snd (main rt caps life argv turns w)) = [].
Proof.
  intros argv turns w Hlen Hended.
  destruct (connect_to_server_log rt W caps life (nth 1 argv []) w)
    as (log1 & Hlog1 & Hnone & _).
  destruct (main_runs rt W caps life argv turns w Hlen)
    as [(e & _ & Hmain)|(_ & ended & w2 & evs & _ & Hmain)];
    cbv zeta in Hmain; rewrite Hmain in Hended |- *.
  - destruct (finally_cleanup_runs rt W life (Raises e)
                (snd (connect_to_server rt caps life (nth 1 argv [])
                        (new_client w))))
      as (r & w' & _ & Hrun).
    rewrite Hrun. cbn [fst snd c_log c_exit_stack].
    exists log1, r. rewrite Hlog1. auto.
  - destruct ended; [|now contradiction Hended].
    match goal with
    | |- context [finally_cleanup _ _ _ ?c] =>
        destruct (finally_cleanup_runs rt W life Returns c)
          as (r & w' & _ & Hrun)
    end.
    rewrite Hrun. cbn [fst snd c_log c_exit_stack].
    exists (log1 ++ map LBase evs), r. rewrite Hlog1.
    split; [reflexivity|]. split; [|reflexivity].
    rewrite existsb_app, Hnone. apply no_close_in_base.
Qed.

Lemma main_closes_the_exit_stack_last_witness :
  exists before r,
    c_log (snd (main ref_runtime (scripted ask_and_quit_script)
                  (scripted_life close_breaks) argv_py 5 (0, 0)))
    = before
      ++ cleanup_log ref_runtime
           (c_exit_stack
              (snd (connect_to_server ref_runtime
                      (scripted ask_and_quit_script)
                      (scripted_life close_breaks) (nth 1 argv_py [])
                      (new_client (0, 0))))) r
    /\ existsb is_close before = false
    /\ c_exit_stack (snd (main ref_runtime (scripted ask_and_quit_script)
                            (scripted_life close_breaks) argv_py 5 (0, 0)))
       = [].
Proof.
  apply (main_closes_the_exit_stack_last ref_runtime scripted_world
           (scripted ask_and_quit_script) (scripted_life close_breaks)
           argv_py 5 (0, 0)).
  - apply le_n.
  - vm_compute. discriminate.
Defined.

(** X20.  When the connection raises, [main] raises the same exception
    after the cleanup: the loop never runs (nothing is read from the
    console), and the log is the one of the connection followed by the
    cleanup, which closes the contexts that were entered before the
    connection failed.  (The exceptions meant are the ones of class
    [Exception]; a closing that raises one is reported by the cleanup
    and does not replace the exception of the connection.) *)
Theorem failed_connection_ends_main_after_cleanup (rt : Runtime) (W : Type)
    (caps : Capabilities W) (life : Lifecycle W) :
  forall (argv : list text) (turns : nat) (w : W) e,
    2 <= length argv ->
    let connected :=
      connect_to_server rt caps life (nth 1 argv []) (new_client w) in
    fst connected = inl e ->
    fst (main rt caps life argv turns w) = Raises e
    /\ existsb is_console_read
         (c_log (snd (main rt caps life argv turns w))) = false
    /\ c_log (snd (main rt caps life argv turns w))
       = c_log (snd connected)
         ++ cleanup_log rt (c_exit_stack (snd connected))
              (fst (exit_stack_aclose life (c_exit_stack (snd connected))
                      (c_world (snd connected)))).
Proof.
  intros argv turns w e Hlen connected Hraised.
  destruct (main_runs rt W caps life argv turns w Hlen)
    as [(e' & Hfail & Hmain)|(Hok & _)].
  - cbv zeta in Hmain. fold connected in Hfail, Hmain. rewrite Hmain.
    rewrite Hfail in Hraised. inversion Hraised; subst e'.
    destruct (finally_cleanup_runs rt W life (Raises e) (snd connected))
      as (r & w' & Hclose & Hrun).
    rewrite Hrun, Hclose. cbn [fst snd c_log].
    split; [reflexivity|]. split; [|reflexivity].
    rewrite existsb_app. unfold connected.
    rewrite (no_read_in_connect rt W caps life). reflexivity.
  - fold connected in Hok. rewrite Hok in Hraised. discriminate.
Qed.

Lemma failed_connection_ends_main_after_cleanup_witness :
  fst (main ref_runtime (scripted ask_and_quit_script)
         (scripted_life session_breaks) argv_py 5 (0, 0))
  = Raises (Raised (str "cannot open the session"))
  /\ existsb is_console_read
       (c_log (snd (main ref_runtime (scripted ask_and_quit_script)
                      (scripted_life session_breaks) argv_py 5 (0, 0))))
     = false
  /\ c_log (snd (main ref_runtime (scripted ask_and_quit_script)
                   (scripted_life session_breaks) argv_py 5 (0, 0)))
     = [printed (LF :: str "Attempting to connect to server: server.py");
        printed (str "Starting python server...");
        LSpawn (server_params_for (str "server.py")) (inr tt);
        LSession (inl (Raised (str "cannot open the session")));
        printed (LF :: cross_mark
                 ++ str " Failed to connect to server: cannot open the session");
        printed (LF :: str "Cleaning up and disconnecting from server...");
        LClose [Transport] (inr tt);
        printed (check_mark ++ str " Successfully disconnected from server")].
Proof.
  exact (failed_connection_ends_main_after_cleanup ref_runtime
           scripted_world (scripted ask_and_quit_script)
           (scripted_life session_breaks) argv_py 5 (0, 0)
           (Raised (str "cannot open the session")) (le_n 2) eq_refl).
Defined.

(** X21.  [main] returns only after a [quit]: the connection succeeded,
    the last thing before the cleanup is the reading of a line that is
    [quit] once stripped and lowered, and the cleanup closes the session
    and the transport. *)
Theorem main_returns_after_quit (rt : Runtime) (W : Type)
    (caps : Capabilities W) (life : Lifecycle W) :
  forall (argv : list text) (turns : nat) (w : W),
    2 <= length argv ->
    fst (main rt caps life argv turns w) = Returns ->
    fst (connect_to_server rt caps life (nth 1 argv []) (new_client w))
    = inr tt
    /\ exists before line r,
         c_log (snd (main rt caps life argv turns w))
         = before
           ++ [LBase (EvInput (LF :: str "Query: ") (inr line))]
           ++ cleanup_log rt [Session; Transport] r
         /\ text_eqb (str_lower rt (str_strip rt line)) (str "quit") = true.
Proof.
  intros argv turns w Hlen Hreturns.
  destruct (main_runs rt W caps life argv turns w Hlen)
    as [(e & _ & Hmain)|(Hok & ended & w2 & evs & Hloop & Hmain)];
    cbv zeta in Hmain; rewrite Hmain in Hreturns |- *.
  - destruct (finally_cleanup_runs rt W life (Raises e)
                (snd (connect_to_server rt caps life (nth 1 argv [])
                        (new_client w))))
      as (r & w' & _ & Hrun).
    rewrite Hrun in Hreturns. discriminate.
  - split; [exact Hok|].
    destruct ended; [|discriminate].
    destruct (chat_loop_break rt W caps turns _ _ _ Hloop)
      as (before & line & -> & Hquit).
    destruct (connect_to_server_states rt W caps life (nth 1 argv []) w)
      as [_ Hstate].
    destruct (Hstate tt Hok) as [Hstack _].
    match goal with
    | |- context [finally_cleanup _ _ _ ?c] =>
        destruct (finally_cleanup_runs rt W life Returns c)
          as (r & w' & _ & Hrun)
    end.
    rewrite Hrun. cbn [fst snd c_log c_exit_stack]. rewrite Hstack.
    exists (c_log (snd (connect_to_server rt caps life (nth 1 argv [])
                          (new_client w)))
            ++ map LBase before), line, r.
    split; [|exact Hquit].
    rewrite map_app, <- !app_assoc. reflexivity.
Qed.

Lemma main_returns_after_quit_witness :
  exists before line r,
    c_log (snd (main ref_runtime (scripted ask_and_quit_script)
                  (scripted_life all_well) argv_py 5 (0, 0)))
    = before
      ++ [LBase (EvInput (LF :: str "Query: ") (inr line))]
      ++ cleanup_log ref_runtime [Session; Transport] r
    /\ text_eqb (str_lower ref_runtime (str_strip ref_runtime line))
         (str "quit") = true.
Proof.
  exact (proj2 (main_returns_after_quit ref_runtime scripted_world
                  (scripted ask_and_quit_script) (scripted_life all_well)
                  argv_py 5 (0, 0) (le_n 2) eq_refl)).
Defined.

(** X22.  While the loop is running, the connection is held: after any
    number of turns that did not end the loop, the connection had
    succeeded, the session and the transport are on the exit stack, the
    session is set and nothing has been closed. *)
Theorem connection_is_held_while_the_loop_runs (rt : Runtime) (W : Type)
    (caps : Capabilities W) (life : Lifecycle W) :
  forall (argv : list text) (turns : nat) (w : W),
    2 <= length argv ->
    fst (main rt caps life argv turns w) = StillLooping ->
    fst (connect_to_server rt caps life (nth 1 argv []) (new_client w))
    = inr tt
    /\ c_exit_stack (snd (main rt caps life argv turns w))
       = [Session; Transport]
    /\ c_session (snd (main rt caps life argv turns w)) = true
    /\ existsb is_close (c_log (snd (main rt caps life argv turns w)))
       = false.
Proof.
  intros argv turns w Hlen Hlooping.
  destruct (connect_to_server_log rt W caps life (nth 1 argv []) w)
    as (log1 & Hlog1 & Hnone & _).
  destruct (main_runs rt W caps life argv turns w Hlen)
    as [(e & _ & Hmain)|(Hok & ended & w2 & evs & Hloop & Hmain)];
    cbv zeta in Hmain; rewrite Hmain in Hlooping |- *.
  - destruct (finally_cleanup_runs rt W life (Raises e)
                (snd (connect_to_server rt caps life (nth 1 argv [])
                        (new_client w))))
      as (r & w' & _ & Hrun).
    rewrite Hrun in Hlooping. discriminate.
  - split; [exact Hok|].
    destruct (connect_to_server_states rt W caps life (nth 1 argv []) w)
      as [_ Hstate].
    destruct (Hstate tt Hok) as [Hstack Hsession].
    destruct ended.
    + match type of Hlooping with
      | fst (finally_cleanup _ _ _ ?c) = _ =>
          destruct (finally_cleanup_runs rt W life Returns c)
            as (r & w' & _ & Hrun)
      end.
      rewrite Hrun in Hlooping. discriminate.
    + cbn [fst snd c_log c_exit_stack c_session].
      split; [exact Hstack|]. split; [exact Hsession|].
      rewrite Hlog1, existsb_app, Hnone. apply no_close_in_base.
Qed.

Lemma connection_is_held_while_the_loop_runs_witness :
  c_exit_stack (snd (main ref_runtime closed_console (scripted_life all_well)
                       argv_py 3 (0, 0)))
  = [Session; Transport]
  /\ c_session (snd (main ref_runtime closed_console (scripted_life all_well)
                       argv_py 3 (0, 0)))
     = true.
Proof.
  destruct (connection_is_held_while_the_loop_runs ref_runtime scripted_world
              closed_console (scripted_life all_well) argv_py 3 (0, 0)
              (le_n 2) eq_refl) as (_ & Hstack & Hsession & _).
  split; [exact Hstack | exact Hsession].
Defined.

(* ================================================================== *)
(** * The console *)

Section ConsoleFacts.
Variable rt : Runtime.
Variable W : Type.
Variable caps : Capabilities W.

(** A round of the loop prints no line that starts with the warning
    sign. *)
Lemma dispatch_prints_no_warning (acc : list message * list text)
    (m : text * text) (st : state W) :
  exists r w' evs,
    runs_to (dispatch rt caps acc m) st r w' evs
    /\ existsb is_warning evs = false.
Proof.
  destruct acc as [h segs], m as [n raw].
  unfold runs_to, dispatch, bind, try_except, lift, print, call_tool,
    openai_chat, acreate, perform, ret.
  cbn [world log].
  destruct (json_loads rt raw) as [e|v]; cbn [world log];
    match goal with
    | |- context [session_call_tool caps ?n ?a ?w] =>
        destruct (session_call_tool caps n a w) as [[e'|c] w1]
    end; cbn [world log];
    try (rewrite followup_chat_request; unfold bind, lift;
         cbn [world log];
         match goal with
         | |- context [chat_completion caps ?req ?w] =>
             destruct (chat_completion caps req w) as [[e''|t] w2]
         end; cbn [world log]);
    eexists _, _, _; (split;
      [rewrite <- ?app_assoc; cbn [app]; reflexivity | reflexivity]).
Qed.

Lemma for_each_prints_no_warning (ds : list (text * text)) :
  forall acc (st : state W),
  exists r w' evs,
    runs_to (for_each (dispatch rt caps) ds acc) st r w' evs
    /\ existsb is_warning evs = false.
Proof.
  induction ds as [|d ds IH]; intros acc st.
  - exists (inr acc), (world st), []. split; [apply runs_to_ret|reflexivity].
  - cbn [for_each].
    destruct (dispatch_prints_no_warning acc d st)
      as ([e|acc'] & w1 & evs1 & Hrun1 & Hnone1).
    + exists (inl e), w1, evs1. split; [|exact Hnone1].
      apply runs_to_bind_fail. exact Hrun1.
    + destruct (IH acc' {| world := w1; log := log st ++ evs1 |})
        as (r & w' & evs & Hrun & Hnone).
      exists r, w', (evs1 ++ evs). split.
      * eapply runs_to_bind; [exact Hrun1 | exact Hrun].
      * rewrite existsb_app, Hnone1, Hnone. reflexivity.
Qed.
Ltac then_print :=
  eapply runs_to_bind; [apply runs_to_print | cbn [world log]].

(** The console of a query the model answered: the lines up to the
    answer, the warning when the scan finds nothing, and the lines of
    the rounds, none of which starts with the warning sign. *)
Lemma process_query_console (query : text) (st : state W) tools w1 req
    initial w2 :
  session_list_tools caps (world st) = (inr tools, w1) ->
  initial_request rt query tools = inr req ->
  chat_completion caps req w1 = (inr initial, w2) ->
  exists before rounds,
    existsb is_warning before = false
    /\ existsb is_warning rounds = false
    /\ events (process_query rt caps query) st
       = before
         ++ match findall (isalnum rt) initial with
            | [] => [EvPrint no_tool_call_line]
            | _ => rounds
            end.
Proof.
  intros Hl Hreq Hc.
  set (evs0 :=
         [EvPrint (LF :: str "Processing query: " ++ query);
          EvListTools (inr tools);
          EvPrint (str "Available tools: "
                   ++ py_str rt
                        (PList (map (fun tool => PStr (e_name tool))
                                  (map tool_as_entry tools))));
          EvPrint (LF :: str "Making initial OpenAI API call...");
          EvComplete req (inr initial);
          EvPrint (LF :: str "Assistant response:" ++ [LF] ++ initial
                   ++ [LF])]).
  set (evs1 := match findall (isalnum rt) initial with
               | [] => [EvPrint no_tool_call_line]
               | _ => []
               end).
  destruct (for_each_prints_no_warning (findall (isalnum rt) initial)
              ([user_message query], [initial])
              {| world := w2; log := (log st ++ evs0) ++ evs1 |})
    as (r & w' & evs & Hrun2 & Hnone).
  assert (Hrun : runs_to (process_query rt caps query) st (transcript_of r)
                   w' (evs0 ++ evs1 ++ evs)).
  { subst evs0. unfold process_query.
    eapply runs_to_events.
    - then_print. eapply runs_to_bind;
        [apply runs_to_perform; exact Hl | cbn [world log]].
      then_print. then_print.
      eapply runs_to_bind;
        [eapply runs_to_openai_chat; [exact Hreq | exact Hc]
        | cbn [world log]].
      then_print. rewrite <- ?app_assoc. cbn [app].
      eapply (runs_to_bind W _ _ _ tt w2 evs1).
      + subst evs1. destruct (findall (isalnum rt) initial).
        * apply runs_to_print.
        * unfold runs_to, ret. cbn [world log]. rewrite app_nil_r.
          reflexivity.
      + cbn [world log].
        rewrite <- ?app_assoc in Hrun2. cbn [app] in Hrun2.
        rewrite <- ?app_assoc. cbn [app].
        destruct r as [e|acc].
        * apply runs_to_bind_fail. exact Hrun2.
        * apply (runs_to_bind_ret W _ (fun acc => join [LF] (snd acc))).
          exact Hrun2.
    - rewrite <- ?app_assoc. reflexivity. }
  apply runs_to_outcome in Hrun. destruct Hrun as [_ Hev].
  exists evs0, evs. split; [reflexivity|]. split; [exact Hnone|].
  rewrite Hev. subst evs1.
  destruct (findall (isalnum rt) initial) eqn:Hscan; [|reflexivity].
  unfold runs_to in Hrun2. cbn in Hrun2. unfold ret in Hrun2.
  inversion Hrun2 as [[Hr Hw Hlog]].
  rewrite <- (app_nil_r ((log st ++ evs0) ++ [EvPrint no_tool_call_line]))
    in Hlog at 1.
  apply app_inv_head in Hlog. subst evs. reflexivity.
Qed.
End ConsoleFacts.

Lemma warning_line_is_a_warning :
  is_warning (EvPrint no_tool_call_line) = true.
Proof. reflexivity. Qed.

(** X23.  The warning that no tool call was detected tells exactly that
    nothing is dispatched: in a query the model answered,
    [process_query] prints the line if and only if the scan finds no
    directive in the answer, and the line is then the last thing the
    query does. *)
Theorem warning_tells_that_nothing_is_dispatched (rt : Runtime) (W : Type)
    (caps : Capabilities W) :
  forall (query : text) (st : state W) tools initial,
    answers_first rt caps query st tools initial ->
    (In (EvPrint no_tool_call_line) (events (process_query rt caps query) st)
     -> findall (isalnum rt) initial = [])
    /\ (findall (isalnum rt) initial = [] ->
        exists before,
          events (process_query rt caps query) st
          = before ++ [EvPrint no_tool_call_line]
          /\ ~ In (EvPrint no_tool_call_line) before).
Proof.
  intros query st tools initial (w1 & req & w2 & Hl & Hreq & Hc).
  destruct (process_query_console rt W caps query st tools w1 req initial w2
              Hl Hreq Hc) as (before & rounds & Hbefore & Hrounds & Hev).
  assert (Hnot : forall evs, existsb is_warning evs = false ->
                             ~ In (EvPrint no_tool_call_line) evs).
  { intros evs Hnone Hin.
    assert (Hsome : existsb is_warning evs = true).
    { apply existsb_exists. exists (EvPrint no_tool_call_line).
      split; [exact Hin | exact warning_line_is_a_warning]. }
    rewrite Hnone in Hsome. discriminate. }
  rewrite Hev. split.
  - destruct (findall (isalnum rt) initial) as [|d ds]; [reflexivity|].
    intros Hin. apply in_app_or in Hin.
    destruct Hin as [Hin|Hin]; [now apply Hnot in Hin | now apply Hnot in Hin].
  - intros Hscan. rewrite Hscan. exists before.
    split; [reflexivity | now apply Hnot].
Qed.

Lemma warning_tells_that_nothing_is_dispatched_witness :
  exists before,
    events (process_query ref_runtime (scripted plain_answer_script)
              (str "hello")) start
    = before ++ [EvPrint no_tool_call_line]
    /\ ~ In (EvPrint no_tool_call_line) before.
Proof.
  exact (proj2 (warning_tells_that_nothing_is_dispatched ref_runtime
                  scripted_world (scripted plain_answer_script) (str "hello")
                  start [weather_tool] (str "Hello! How can I help?")
                  plain_answer_first)
           eq_refl).
Defined.
